(** * Quarto: document segmentation and YAML automation

    A shallow embedding of
      - [src/core/break-quarto-md.ts]          (the chunk segmenter),
      - [src/core/schema/validate-document.ts] (document validation),
      - [src/resources/editor/tools/yaml/automation.js] (IDE completions
        and lints),
    together with the properties their specification states.

    JavaScript strings are modelled as [string]: sequences of code units
    below 256 (the Latin-1 range).  On that range [\s] and the characters
    removed by [trim()] are the same seven code units, and [.] excludes
    line feed and carriage return. *)

From Stdlib Require Import String Ascii List Bool Arith NArith ZArith Lia.
From Stdlib Require Import Sorted Permutation.
Import ListNotations.

Local Open Scope string_scope.
Local Open Scope list_scope.

(* ================================================================== *)
(** * Strings as JavaScript sees them *)
(* ================================================================== *)

Module Js.

Definition LF : ascii := ascii_of_nat 10.
Definition CR : ascii := ascii_of_nat 13.

(** ["\n"] *)
Definition nl : string := String LF EmptyString.

(** The class [\s] of a RegExp and the white space removed by
    [String.prototype.trim]: TAB, LF, VT, FF, CR, SP and NBSP. *)
Definition isWhiteSpace (c : ascii) : bool :=
  let n := N_of_ascii c in
  ((9 <=? n) && (n <=? 13) || (n =? 32) || (n =? 160))%N.

(** What [.] refuses to match. *)
Definition isLineTerminator (c : ascii) : bool :=
  Ascii.eqb c LF || Ascii.eqb c CR.

(** [\s*$]: the rest of the input is white space. *)
Fixpoint allWhiteSpace (s : string) : bool :=
  match s with
  | EmptyString => true
  | String c r => isWhiteSpace c && allWhiteSpace r
  end.

Fixpoint trimStart (s : string) : string :=
  match s with
  | EmptyString => EmptyString
  | String c r => if isWhiteSpace c then trimStart r else s
  end.

Fixpoint trimEnd (s : string) : string :=
  match s with
  | EmptyString => EmptyString
  | String c r =>
      match trimEnd r with
      | EmptyString => if isWhiteSpace c then EmptyString else String c EmptyString
      | r' => String c r'
      end
  end.

Definition trim (s : string) : string := trimEnd (trimStart s).

Fixpoint startsWith (s p : string) : bool :=
  match p, s with
  | EmptyString, _ => true
  | String a p', String b s' => Ascii.eqb a b && startsWith s' p'
  | String _ _, EmptyString => false
  end.

Fixpoint rev_string (acc s : string) : string :=
  match s with
  | EmptyString => acc
  | String c r => rev_string (String c acc) r
  end.

Definition endsWith (s p : string) : bool :=
  startsWith (rev_string EmptyString s) (rev_string EmptyString p).

(** [s.substring(n)] for [0 <= n]. *)
Fixpoint drop (n : nat) (s : string) : string :=
  match n, s with
  | O, _ => s
  | S n', String _ r => drop n' r
  | S _, EmptyString => EmptyString
  end.

(** [s.substring(0, n)] for [0 <= n]. *)
Fixpoint take (n : nat) (s : string) : string :=
  match n, s with
  | O, _ => EmptyString
  | S n', String c r => String c (take n' r)
  | S _, EmptyString => EmptyString
  end.

(** [s.indexOf(p) !== -1] *)
Fixpoint includes (s p : string) : bool :=
  startsWith s p ||
  match s with
  | EmptyString => false
  | String _ r => includes r p
  end.

(** [s.lastIndexOf(p)], [None] for [-1]. *)
Fixpoint lastIndexOf (s p : string) : option nat :=
  match s with
  | EmptyString => if startsWith s p then Some 0 else None
  | String _ r =>
      match lastIndexOf r p with
      | Some i => Some (S i)
      | None => if startsWith s p then Some 0 else None
      end
  end.

(** Modelled from the spec: [lines] of [core/text.ts], which is not
    among the sources.  The document is read line by line; a line ends
    at a line feed, which a carriage return may precede (the text is
    split at [/\r?\n/]). *)
Fixpoint lines (s : string) : list string :=
  match s with
  | EmptyString => [EmptyString]
  | String c r =>
      if Ascii.eqb c LF then EmptyString :: lines r
      else
        match r with
        | String c2 r2 =>
            if Ascii.eqb c CR && Ascii.eqb c2 LF then EmptyString :: lines r2
            else match lines r with
                 | l :: ls => String c l :: ls
                 | [] => [String c EmptyString]
                 end
        | EmptyString => [String c EmptyString]
        end
  end.

(** [ls.join("\n")] *)
Fixpoint unlines (ls : list string) : string :=
  match ls with
  | [] => EmptyString
  | [l] => l
  | l :: rest => (l ++ nl ++ unlines rest)%string
  end.

(** [Array.prototype.findIndex]; [-1] when nothing is found. *)
Fixpoint findIndex {A} (p : A -> bool) (l : list A) : Z :=
  match l with
  | [] => (-1)%Z
  | x :: r =>
      if p x then 0%Z
      else let i := findIndex p r in
           if (i =? -1)%Z then (-1)%Z else (i + 1)%Z
  end.

(** [Array.prototype.map] with the index as second argument. *)
Fixpoint mapi_from {A B} (i : nat) (f : A -> nat -> B) (l : list A) : list B :=
  match l with
  | [] => []
  | x :: r => f x i :: mapi_from (S i) f r
  end.

Definition mapi {A B} (f : A -> nat -> B) (l : list A) : list B :=
  mapi_from 0 f l.

(** [l.slice(i)] and [l.slice(0, j)] for indices that are not negative. *)
Definition sliceFrom {A} (l : list A) (i : Z) : list A := skipn (Z.to_nat i) l.
Definition sliceTo {A} (l : list A) (j : Z) : list A := firstn (Z.to_nat j) l.

End Js.

Import Js.

(* ================================================================== *)
(** * break-quarto-md.ts *)
(* ================================================================== *)

Inductive CellType : Type :=
| Markdown
| Code (language : string)
| Raw.

Record QuartoMdCell : Type := mkCell {
  cell_type : CellType;
  source : list string
}.

(** ** The regular expressions *)

Fixpoint stripPrefix (p s : string) : option string :=
  match p, s with
  | EmptyString, _ => Some s
  | String a p', String b s' => if Ascii.eqb a b then stripPrefix p' s' else None
  | String _ _, EmptyString => None
  end.

(** [/^---\s*$/] *)
Definition yamlRegEx (line : string) : bool :=
  match stripPrefix "---" line with
  | Some rest => allWhiteSpace rest
  | None => false
  end.

(** [/^```/] *)
Definition startCodeRegEx (line : string) : bool :=
  match stripPrefix "```" line with
  | Some _ => true
  | None => false
  end.

(** [/^```\s*$/] *)
Definition endCodeRegEx (line : string) : bool :=
  match stripPrefix "```" line with
  | Some rest => allWhiteSpace rest
  | None => false
  end.

Fixpoint skipBackticks (s : string) : string :=
  match s with
  | String c r => if Ascii.eqb c "`" then skipBackticks r else s
  | EmptyString => s
  end.

(** ".*\}\s*$": some closing brace is reached without crossing a line
    terminator and only white space follows it. *)
Fixpoint dotStarBrace (s : string) : bool :=
  match s with
  | EmptyString => false
  | String c r =>
      (Ascii.eqb c "}" && allWhiteSpace r)
      || (negb (isLineTerminator c) && dotStarBrace r)
  end.

(** The tail of the cell pattern: an optional group (spaces, one space
    or comma, then any characters but line terminators), a closing
    brace and white space up to the end.  The group matches exactly the
    texts that start with a space or a comma and hold no line terminator
    afterwards. *)
Definition optionsThenBrace (s : string) : bool :=
  match s with
  | String c r =>
      (Ascii.eqb c "}" && allWhiteSpace r)
      || ((Ascii.eqb c " " || Ascii.eqb c ",") && dotStarBrace r)
  | EmptyString => false
  end.

(** [startCodeCellRegEx]: white space, three or more backticks, white
    space, an opening brace, [language], then the tail above.
    [language] is a word over [[a-zA-Z0-9_]] (the language pattern of
    line 44), so its text stands for itself in the expression.  White
    space, a backtick and an opening brace exclude one another, hence
    each starred item of the prefix consumes its maximal run. *)
Definition startCodeCellRegEx (language line : string) : bool :=
  match stripPrefix "```" (trimStart line) with
  | Some r =>
      match stripPrefix "{" (trimStart (skipBackticks r)) with
      | Some r1 =>
          match stripPrefix language r1 with
          | Some r2 => optionsThenBrace r2
          | None => false
          end
      | None => false
      end
  | None => false
  end.

(** ** mdTrimEmptyLines *)

(** [line.trim().length > 0] *)
Definition nonEmptyLine (line : string) : bool :=
  (0 <? String.length (trim line))%nat.

(** The backwards loop of [mdTrimEmptyLines]: the largest index of a
    non-empty line, [-1] when there is none. *)
Fixpoint lastNonEmptyIndex (lines : list string) : Z :=
  match lines with
  | [] => (-1)%Z
  | l :: r =>
      let i := lastNonEmptyIndex r in
      if (i >? -1)%Z then (i + 1)%Z
      else if nonEmptyLine l then 0%Z else (-1)%Z
  end.

Definition mdTrimEmptyLines (lines : list string) : list string :=
  let firstNonEmpty := findIndex nonEmptyLine lines in
  if (firstNonEmpty =? -1)%Z then []
  else
    let lines := sliceFrom lines firstNonEmpty in
    let lastNonEmpty := lastNonEmptyIndex lines in
    if (lastNonEmpty >? -1)%Z then sliceTo lines (lastNonEmpty + 1)
    else lines.

(** ** The segmenter's state and flushLineBuffer *)

Inductive FlushKind : Type := FlushMarkdown | FlushCode | FlushRaw.

Record SegState : Type := mkState {
  cells : list QuartoMdCell;       (* nb.cells *)
  lineBuffer : list string;
  parsedFrontMatter : bool;
  inYaml : bool;
  inCodeCell : bool;
  inCode : bool
}.

Definition initialState : SegState :=
  mkState [] [] false false false false.

Definition withBuffer (st : SegState) (buf : list string) : SegState :=
  mkState (cells st) buf (parsedFrontMatter st) (inYaml st)
          (inCodeCell st) (inCode st).

Definition push (st : SegState) (line : string) : SegState :=
  withBuffer st (lineBuffer st ++ [line]).

Definition spliceFirstEmpty (buf : list string) : list string :=
  match buf with
  | first :: rest => if first =? "" then rest else buf
  | [] => buf
  end.

Definition spliceLastEmpty (buf : list string) : list string :=
  match buf with
  | [] => buf
  | _ :: _ => if last buf "x" =? "" then removelast buf else buf
  end.

Definition cellSource (buf : list string) : list string :=
  mapi (fun line index =>
          (line ++ (if (index <? length buf - 1)%nat then nl else ""))%string) buf.

Definition cellTypeOf (language : string) (kind : FlushKind) : CellType :=
  match kind with
  | FlushCode => Code language
  | FlushMarkdown => Markdown
  | FlushRaw => Raw
  end.

Definition flushLineBuffer (language : string) (kind : FlushKind)
    (frontMatter : bool) (st : SegState) : SegState :=
  match lineBuffer st with
  | [] => st
  | _ :: _ =>
      let buf := spliceLastEmpty (spliceFirstEmpty (lineBuffer st)) in
      let src := mdTrimEmptyLines (cellSource buf) in
      let cells' :=
        if (0 <? length src)%nat
        then cells st ++ [mkCell (cellTypeOf language kind) src]
        else cells st in
      mkState cells' [] (parsedFrontMatter st) (inYaml st)
              (inCodeCell st) (inCode st)
  end.

(** ** The loop body and breakQuartoMd *)

Definition setYaml (st : SegState) (parsed yaml : bool) : SegState :=
  mkState (cells st) (lineBuffer st) parsed yaml (inCodeCell st) (inCode st).

Definition setInCodeCell (st : SegState) (b : bool) : SegState :=
  mkState (cells st) (lineBuffer st) (parsedFrontMatter st) (inYaml st)
          b (inCode st).

Definition setInCode (st : SegState) (b : bool) : SegState :=
  mkState (cells st) (lineBuffer st) (parsedFrontMatter st) (inYaml st)
          (inCodeCell st) b.

Definition processLine (language : string) (st : SegState) (line : string)
  : SegState :=
  if yamlRegEx line && negb (inCodeCell st) && negb (inCode st) then
    if inYaml st then
      let st1 := push st line in
      let st2 := flushLineBuffer language FlushRaw
                   (negb (parsedFrontMatter st1)) st1 in
      setYaml st2 true false
    else
      let st1 := flushLineBuffer language FlushMarkdown false st in
      let st2 := push st1 line in
      setYaml st2 (parsedFrontMatter st2) true
  else if startCodeCellRegEx language line then
    setInCodeCell (flushLineBuffer language FlushMarkdown false st) true
  else if endCodeRegEx line then
    if inCodeCell st then
      flushLineBuffer language FlushCode false (setInCodeCell st false)
    else
      push (setInCode st (negb (inCode st))) line
  else if startCodeRegEx line then
    push (setInCode st true) line
  else
    push st line.

Definition segment (language : string) (ls : list string) : SegState :=
  flushLineBuffer language FlushMarkdown false
    (fold_left (processLine language) ls initialState).

Definition breakQuartoMd (src language : string) : list QuartoMdCell :=
  cells (segment language (lines src)).


(** A source entry is a buffered line, followed by a line feed unless it
    was the last of the buffer; [chomp] takes that line feed away. *)
Fixpoint chomp (s : string) : string :=
  match s with
  | EmptyString => EmptyString
  | String c r =>
      match r with
      | EmptyString => if Ascii.eqb c LF then EmptyString else s
      | String _ _ => String c (chomp r)
      end
  end.

Definition cellLines (c : QuartoMdCell) : list string := map chomp (source c).

Fixpoint hasLF (s : string) : bool :=
  match s with
  | EmptyString => false
  | String c r => Ascii.eqb c LF || hasLF r
  end.

(** A blank line: nothing is left of it after [trim()]. *)
Definition blankLine (line : string) : bool := negb (nonEmptyLine line).

(** ** Notions used to state the properties of the segmenter *)

Definition newCells (language : string) (kind : FlushKind)
    (src : list string) : list QuartoMdCell :=
  match src with
  | [] => []
  | _ :: _ => [mkCell (cellTypeOf language kind) src]
  end.

(** The cells a flush adds, computed from the buffer. *)
Definition flushed (language : string) (kind : FlushKind)
    (buf : list string) : list QuartoMdCell :=
  match buf with
  | [] => []
  | _ :: _ =>
      newCells language kind
        (mdTrimEmptyLines
           (cellSource (spliceLastEmpty (spliceFirstEmpty buf))))
  end.

(** [Reassembles gap doc chunks]: the document is the chunks in order,
    each one contiguous, with runs of [gap] lines before, between and
    after them. *)
Inductive Reassembles (gap : string -> bool)
  : list string -> list (list string) -> Prop :=
| Reassembles_end : forall g,
    forallb gap g = true -> Reassembles gap g []
| Reassembles_cell : forall g chunk rest chunks,
    forallb gap g = true ->
    Reassembles gap rest chunks ->
    Reassembles gap (g ++ chunk ++ rest) (chunk :: chunks).

(** [Occupies doc from starts chunks]: chunk number [i] is the run of
    document lines that begins at line [starts(i)], at or after [from],
    and the next chunk begins after its end. *)
Fixpoint Occupies (doc : list string) (from : nat) (starts : list nat)
    (chunks : list (list string)) : Prop :=
  match starts, chunks with
  | [], [] => True
  | s :: starts', c :: chunks' =>
      from <= s
      /\ firstn (length c) (skipn s doc) = c
      /\ Occupies doc (s + length c) starts' chunks'
  | _, _ => False
  end.

(** The lines that end up in no cell: blank lines, and the fences of the
    cells of the target language. *)
Definition gapLine (language line : string) : bool :=
  blankLine line || startCodeCellRegEx language line || endCodeRegEx line.

(** After the lines [done], the cells emitted so far and the buffer
    account for every line read. *)
Definition SegInv (language : string) (done : list string)
    (st : SegState) : Prop :=
  exists pre,
    done = pre ++ lineBuffer st
    /\ Reassembles (gapLine language) pre (map cellLines (cells st)).


(** The closing fence in the words of the specification: three or more
    backticks and nothing else but trailing white space. *)
Definition bareFenceOfSpec (line : string) : bool :=
  match stripPrefix "```" line with
  | Some r => allWhiteSpace (skipBackticks r)
  | None => false
  end.

(** [startLine] reads the number of its first document line off every
    emitted cell. *)
Definition RecordsStartLine (startLine : QuartoMdCell -> nat) : Prop :=
  forall src language,
    Forall (fun c =>
              firstn (length (cellLines c)) (skipn (startLine c) (lines src))
              = cellLines c)
           (breakQuartoMd src language).

(* ================================================================== *)
(** * Schemas and the schema navigator *)
(* ================================================================== *)

(** A cursor path: object keys and sequence indices. *)
Inductive Segment : Type :=
| Key (k : string)
| Index (i : nat).

(** The constraint tree of the data model: objects with named and
    pattern properties, arrays with one item schema, scalars, and unions
    of alternatives. *)
#[warnings="-register-all"]
Inductive Schema : Type :=
| SObject (properties : list (string * Schema))
          (patternProperties : list ((string -> bool) * Schema))
| SArray (items : Schema)
| SScalar (type : string) (enum : list string)
| SUnion (alternatives : list Schema).

(** Modelled from the spec: [navigateSchema] of [schemas.js], which is
    not among the sources.  "For an object schema, descend into the
    named property's schema (or a matching pattern-property schema) if
    the segment is a string key; for an array schema, descend into the
    item schema regardless of the numeric segment's value.  For a union
    schema encountered at any point, descend into every alternative and
    return the union of all results; a path that is invalid for a given
    branch drops only that branch.  An empty path returns the schema
    itself."  The result is an array: [completions] maps over it. *)
Fixpoint navigateSchema (schema : Schema) (path : list Segment)
  : list Schema :=
  match path with
  | [] => [schema]
  | seg :: rest =>
      match schema with
      | SObject properties patternProperties =>
          match seg with
          | Key k =>
              (fix named (ps : list (string * Schema)) : list Schema :=
                 match ps with
                 | (name, sub) :: ps' =>
                     if (k =? name)%string then navigateSchema sub rest
                     else named ps'
                 | [] =>
                     (fix matching (qs : list ((string -> bool) * Schema))
                        : list Schema :=
                        match qs with
                        | (pattern, sub) :: qs' =>
                            if pattern k then navigateSchema sub rest
                            else matching qs'
                        | [] => []
                        end) patternProperties
                 end) properties
          | Index _ => []
          end
      | SArray items =>
          match seg with
          | Index _ => navigateSchema items rest
          | Key _ => []
          end
      | SScalar _ _ => []
      | SUnion alternatives =>
          (fix each (alts : list Schema) : list Schema :=
             match alts with
             | alt :: alts' => navigateSchema alt path ++ each alts'
             | [] => []
             end) alternatives
      end
  end.

(** A one-segment path is valid in a schema when the schema has a place
    for the segment: a named or pattern property for a key, the items
    for an index, some alternative of a union. *)
Fixpoint accepts (schema : Schema) (seg : Segment) : bool :=
  match schema with
  | SObject properties patternProperties =>
      match seg with
      | Key k =>
          existsb (fun p => (k =? fst p)%string) properties
          || existsb (fun q => fst q k) patternProperties
      | Index _ => false
      end
  | SArray _ => match seg with Index _ => true | Key _ => false end
  | SScalar _ _ => false
  | SUnion alternatives =>
      (fix some (alts : list Schema) : bool :=
         match alts with
         | alt :: alts' => accepts alt seg || some alts'
         | [] => false
         end) alternatives
  end.

Definition isUnion (schema : Schema) : bool :=
  match schema with
  | SUnion _ => true
  | _ => false
  end.

(** The number of alternatives in which the segment is valid. *)
Definition validAlternatives (alts : list Schema) (seg : Segment) : nat :=
  length (filter (fun alt => accepts alt seg) alts).

(* ================================================================== *)
(** * automation.js *)
(* ================================================================== *)

Record Position : Type := mkPosition { row : Z; column : Z }.

(** [completion.type]: ["key"] or ["value"]. *)
Inductive CompletionType : Type := KeyCompletion | ValueCompletion.

Record Completion : Type := mkCompletion {
  ctype : CompletionType;
  value : string;
  suggest_on_accept : bool;
  cschema : Schema               (* completion.schema *)
}.

Record CompletionResult : Type := mkResult {
  token : string;
  completions_of : list Completion;   (* the field [completions] *)
  cacheable : bool
}.

Record LocalizedError : Type := mkError {
  start_line : Z; start_col : Z; end_line : Z; end_col : Z;
  messageNoLocation : string
}.

(** A lint marker; its ["type"] is always ["error"]. *)
Record Lint : Type := mkLint {
  start_row : Z; start_column : Z; end_row : Z; end_column : Z;
  text : string
}.

Record ParseAttempt (Tree : Type) : Type := mkAttempt {
  parse : Tree;
  attemptCode : string;          (* the field [code] *)
  deletions : nat
}.
Arguments mkAttempt {Tree}.
Arguments parse {Tree}.
Arguments attemptCode {Tree}.
Arguments deletions {Tree}.

Record Context : Type := mkContext {
  line : string;                 (* editing line up to the cursor *)
  position : Position;
  schema : Schema;
  code : string;                 (* [code.value] *)
  commentPrefix : option string
}.

(** The cells of [core.breakQuartoMd] as the dispatcher reads them. *)
Inductive MappedCellType : Type :=
| MdMarkdown | MdRaw | MdMath
| MdCode (language : string).

Record MappedCell : Type := mkMappedCell {
  mcell_type : MappedCellType;
  msource : string;              (* [cell.source.value] *)
  cellStartLine : Z
}.

Record RangedLine : Type := mkRanged {
  substring : string; range_start : nat; range_end : nat
}.

(** What automation.js imports from elsewhere. *)
Record Collaborators (Tree Annotated : Type) : Type := mkCollaborators {
  (* the grammar-based parser: a tree, or a structural failure *)
  parser : string -> option Tree;
  buildAnnotated : Tree -> string -> option Annotated;
  (* [{withError, value}] *)
  locateCursor : Annotated -> Z -> bool * list Segment;
  (* [{line, code, position}] *)
  locateFromIndentation : string -> string -> Position -> list Segment;
  rowColToIndex : string -> Position -> Z;
  schemaCompletions : Schema -> list Completion;
  (* [core.schemaType]; [None] stands for [undefined] *)
  schemaType : option Schema -> string;
  validateParse : Schema -> string -> Annotated -> list LocalizedError;
  localeCompare : string -> string -> Z;
  (* [core.breakQuartoMd] *)
  breakQuartoMdMapped : string -> list MappedCell;
  rangedLines : string -> list RangedLine;
  (* the [yaml] field of the result; [None] for [undefined] *)
  partitionCellOptionsMapped : string -> string -> option string;
  kLangCommentChars : string -> string;
  frontMatterSchema : Schema;        (* schemas["front-matter"] *)
  languageSchema : string -> Schema  (* schemas.languages[language] *)
}.
Arguments parser {Tree Annotated}.
Arguments buildAnnotated {Tree Annotated}.
Arguments locateCursor {Tree Annotated}.
Arguments locateFromIndentation {Tree Annotated}.
Arguments rowColToIndex {Tree Annotated}.
Arguments schemaCompletions {Tree Annotated}.
Arguments schemaType {Tree Annotated}.
Arguments validateParse {Tree Annotated}.
Arguments localeCompare {Tree Annotated}.
Arguments breakQuartoMdMapped {Tree Annotated}.
Arguments rangedLines {Tree Annotated}.
Arguments partitionCellOptionsMapped {Tree Annotated}.
Arguments kLangCommentChars {Tree Annotated}.
Arguments frontMatterSchema {Tree Annotated}.
Arguments languageSchema {Tree Annotated}.

(** What a handler hands back: [false], a completion result, a list of
    lints, or a thrown error. *)
Inductive Automation : Type :=
| NoAutomation
| CompletionsOf (result : CompletionResult)
| LintsOf (lints : list Lint)
| Threw (message : string).

Inductive Kind : Type := KCompletions | KValidation.

(** ** Small string and array helpers *)

(** [s.slice(-1)] *)
Fixpoint lastChar (s : string) : string :=
  match s with
  | EmptyString => EmptyString
  | String c EmptyString => s
  | String _ r => lastChar r
  end.

(** [s.split(" ").slice(-1)[0]] *)
Fixpoint afterLastSpace (s : string) : string :=
  match s with
  | EmptyString => EmptyString
  | String c r =>
      if includes r " " then afterLastSpace r
      else if Ascii.eqb c " " then r else s
  end.

(** [s.split(":")[0]] *)
Fixpoint beforeColon (s : string) : string :=
  match s with
  | EmptyString => EmptyString
  | String c r => if Ascii.eqb c ":" then EmptyString
                  else String c (beforeColon r)
  end.

(** [" ".repeat(n)] *)
Fixpoint spaces (n : nat) : string :=
  match n with
  | O => EmptyString
  | S n' => String " " (spaces n')
  end.

(** [s.slice(0, -n)]; [-0] is [0], so nothing is left when [n] is 0. *)
Definition sliceOffEnd (s : string) (n : nat) : string :=
  match n with
  | O => EmptyString
  | S _ => take (String.length s - n) s
  end.

(** [s.substring(0, s.length - n)] *)
Definition dropLast (s : string) (n : nat) : string :=
  take (String.length s - n) s.

(** [Array.prototype.sort] with a comparator, which is stable. *)
Fixpoint insertBy {A} (cmp : A -> A -> Z) (x : A) (l : list A) : list A :=
  match l with
  | [] => [x]
  | y :: r => if (cmp x y <=? 0)%Z then x :: l else y :: insertBy cmp x r
  end.

Definition sortBy {A} (cmp : A -> A -> Z) (l : list A) : list A :=
  fold_right (insertBy cmp) [] l.

Definition isKey (c : Completion) : bool :=
  match ctype c with KeyCompletion => true | ValueCompletion => false end.

Definition isValue (c : Completion) : bool :=
  match ctype c with ValueCompletion => true | KeyCompletion => false end.

Definition withValue (c : Completion) (v : string) : Completion :=
  mkCompletion (ctype c) v (suggest_on_accept c) (cschema c).

Definition withCompletions (r : CompletionResult) (cs : list Completion)
  : CompletionResult :=
  mkResult (token r) cs (cacheable r).

(** [completion.schema.properties[key]] *)
Definition propertyOf (s : Schema) (key : string) : option Schema :=
  match s with
  | SObject properties _ =>
      match find (fun p => (fst p =? key)%string) properties with
      | Some p => Some (snd p)
      | None => None
      end
  | _ => None
  end.

(** [path[path.length - 1] === word] *)
Definition lastIs (path : list Segment) (word : string) : bool :=
  match last (map Some path) None with
  | Some (Key k) => (k =? word)%string
  | _ => false
  end.

Section Automation.

Context {Tree Annotated : Type}.
Variable env : Collaborators Tree Annotated.

(** ** positionInTicks and trimTicks *)

Definition positionInTicks (context : Context) : bool :=
  let codeLines := lines (code context) in
  (startsWith (code context) "---" && (row (position context) =? 0)%Z)
  || (endsWith (trimEnd (code context)) "---"
      && (row (position context) =? Z.of_nat (length codeLines) - 1)%Z).

Definition withCode (context : Context) (c : string) : Context :=
  mkContext (line context) (position context) (schema context) c
            (commentPrefix context).

Definition trimTicks (context : Context) : Context :=
  let context1 :=
    if startsWith (code context) "---"
    then withCode context (drop 3 (code context))
    else context in
  if endsWith (trimEnd (code context1)) "---"
  then withCode context1
         (match lastIndexOf (code context1) "---" with
          | Some i => take i (code context1)
          | None => EmptyString
          end)
  else context1.

(** ** The recovery parser *)

(** The attempt made after [d] trailing characters of the line are
    removed: none when the parser reports a structural failure. *)
Definition attemptAt (context : Context) (d : nat)
  : list (ParseAttempt Tree) :=
  let truncated := dropLast (line context) d in
  match parser env truncated with
  | Some tree => [mkAttempt tree truncated d]
  | None => []
  end.

(** Modelled from the spec: [attemptParsesAtLine] of [parsing.js], which
    is not among the sources.  "First attempt the line as given; on
    structural failure, repeatedly remove exactly one trailing character
    (tracking the cumulative deletions count) and retry, until either a
    parse succeeds or the line is exhausted"; the sequence is lazy and
    ordered from most complete to least, so a consumer that asks again
    gets the next truncation that parses. *)
Definition attemptParsesAtLine (context : Context)
  : list (ParseAttempt Tree) :=
  flat_map (attemptAt context) (seq 0 (S (String.length (line context)))).

(** ** validationFromGoodParseYAML *)

(** [code] is a mapped string here, so the guard that throws when
    [code.value] is undefined never fires. *)

Definition lintOfError (error : LocalizedError) : Lint :=
  mkLint (start_line error) (start_col error) (end_line error)
         (end_col error) (messageNoLocation error).

Fixpoint validationLoop (context : Context)
    (attempts : list (ParseAttempt Tree)) : list Lint :=
  match attempts with
  | [] => []                       (* no parses were found, can't lint *)
  | parseResult :: rest =>
      match buildAnnotated env (parse parseResult)
                           (attemptCode parseResult) with
      | None => validationLoop context rest
      | Some annotation =>
          map lintOfError
              (validateParse env (schema context) (code context) annotation)
      end
  end.

Definition validationFromGoodParseYAML (context : Context) : list Lint :=
  validationLoop context (attemptParsesAtLine context).

(** ** completions *)

Definition indentCompletion (commentPrefix : string) (indent : nat)
    (completion : Completion) : Completion :=
  if negb (suggest_on_accept completion)
     || isValue completion
     || negb (schemaType env (Some (cschema completion)) =? "object")%string
  then completion
  else
    let key := beforeColon (value completion) in
    let subSchema := propertyOf (cschema completion) key in
    if (schemaType env subSchema =? "object")%string then
      withValue completion
        (value completion ++ nl ++ commentPrefix ++ spaces (indent + 2))
    else if (schemaType env subSchema =? "array")%string then
      withValue completion
        (value completion ++ nl ++ commentPrefix ++ spaces (indent + 2)
         ++ "- ")
    else completion.

Definition compareCompletions (a b : Completion) : Z :=
  localeCompare env (value a) (value b).

Definition completions (schema : Schema) (path : list Segment)
    (word : string) (indent : nat) (commentPrefix : string)
  : CompletionResult :=
  let matchingSchemas := navigateSchema schema path in
  let completions :=
    filter (fun c => startsWith (value c) word)
      (flat_map (fun schema =>
                   map (indentCompletion commentPrefix indent)
                       (schemaCompletions env schema))
                matchingSchemas) in
  mkResult word (sortBy compareCompletions completions) true.

(** ** completionsFromGoodParseYAML *)

Definition wordOf (line : string) : string :=
  if (lastChar line =? "-")%string || (lastChar line =? ":")%string
  then EmptyString
  else afterLastSpace line.

Definition prefixOf (context : Context) : string :=
  match commentPrefix context with
  | Some p => p
  | None => EmptyString
  end.

Definition keysOnly (r : CompletionResult) : CompletionResult :=
  withCompletions r (filter isKey (completions_of r)).

Definition valuesOnly (r : CompletionResult) : CompletionResult :=
  withCompletions r (filter isValue (completions_of r)).

Definition shifted (context : Context) (deletions : nat) : Position :=
  mkPosition (row (position context))
             (column (position context) - Z.of_nat deletions).

Definition completeEmptyLineOnIndentation (context : Context)
    (word : string) (indent : nat) (deletions : nat) (mappedCode : string)
  : CompletionResult :=
  let path :=
    locateFromIndentation env (sliceOffEnd (line context) deletions)
      mappedCode (shifted context deletions) in
  keysOnly (completions (schema context) path word indent
                        (prefixOf context)).

(** The path of the cursor in an annotated parse.  When the location
    failed the source tests once more whether the truncated line is
    blank; that test is reached only when it is not, so it is left
    out. *)
Definition cursorPath (context : Context) (word : string)
    (parseResult : ParseAttempt Tree) (doc : Annotated) : list Segment :=
  let lineAfterDeletions :=
    dropLast (line context) (deletions parseResult) in
  let index :=
    rowColToIndex env (attemptCode parseResult)
      (shifted context (deletions parseResult)) in
  let located := locateCursor env doc index in
  let path :=
    if fst located
    then locateFromIndentation env lineAfterDeletions
           (attemptCode parseResult)
           (shifted context (deletions parseResult))
    else snd located in
  if lastIs path word then removelast path else path.

Fixpoint completionsLoop (context : Context) (word : string) (indent : nat)
    (attempts : list (ParseAttempt Tree)) : option CompletionResult :=
  match attempts with
  | [] => None
  | parseResult :: rest =>
      let lineAfterDeletions :=
        dropLast (line context) (deletions parseResult) in
      if blankLine lineAfterDeletions then
        Some (completeEmptyLineOnIndentation context word indent
                (deletions parseResult) (attemptCode parseResult))
      else
        match buildAnnotated env (parse parseResult)
                             (attemptCode parseResult) with
        | None => completionsLoop context word indent rest
        | Some doc =>
            let path := cursorPath context word parseResult doc in
            let rawCompletions :=
              completions (schema context) path word indent
                          (prefixOf context) in
            Some (if includes (line context) ":" then
                    valuesOnly rawCompletions
                  else if negb (includes (line context) "-") then
                    keysOnly rawCompletions
                  else rawCompletions)
        end
  end.

Definition completionsFromGoodParseYAML (context : Context)
  : option CompletionResult :=
  let word := wordOf (line context) in
  if blankLine (line context) then
    let path :=
      locateFromIndentation env (line context) (code context)
                            (position context) in
    let indent := String.length (line context) in
    Some (keysOnly (completions (schema context) path word indent
                                (prefixOf context)))
  else
    let indent :=
      String.length (trimEnd (line context))
      - String.length (trim (line context)) in
    completionsLoop context word indent (attemptParsesAtLine context).

(** ** automationFromGoodParseYAML *)

Definition ofCompletions (r : option CompletionResult) : Automation :=
  match r with
  | Some result => CompletionsOf result
  | None => NoAutomation
  end.

Definition automationFromGoodParseYAML (kind : Kind) (context : Context)
  : Automation :=
  match kind with
  | KCompletions =>
      if positionInTicks context then NoAutomation
      else ofCompletions (completionsFromGoodParseYAML (trimTicks context))
  | KValidation =>
      LintsOf (validationFromGoodParseYAML (trimTicks context))
  end.

End Automation.

(** ** automationFromGoodParseScript *)

(** The maximal run of [[a-z]] at the head of a text, and what follows. *)
Fixpoint lowerRun (s : string) : string * string :=
  match s with
  | String c r =>
      if (Nat.leb 97 (nat_of_ascii c) && Nat.leb (nat_of_ascii c) 122)%bool
      then let (w, rest) := lowerRun r in (String c w, rest)
      else (EmptyString, s)
  | EmptyString => (EmptyString, EmptyString)
  end.

(** The text starts with an opening brace, lower-case letters and a
    closing brace: the captured letters. *)
Definition bracedWord (s : string) : option string :=
  match s with
  | String c r =>
      if Ascii.eqb c "{" then
        let (w, rest) := lowerRun r in
        if negb (w =? "")%string && startsWith rest "}" then Some w
        else None
      else None
  | EmptyString => None
  end.

(** The first group of the header pattern, any characters followed by a
    braced lower-case word: the search succeeds in the first run free of
    line terminators that holds a braced word, and the greedy prefix
    picks the last one of that run. *)
Fixpoint headerLanguage (s : string) (found : option string)
  : option string :=
  match s with
  | EmptyString => found
  | String c r =>
      if isLineTerminator c then
        match found with
        | Some _ => found
        | None => headerLanguage r None
        end
      else
        match bracedWord s with
        | Some w => headerLanguage r (Some w)
        | None => headerLanguage r found
        end
  end.

Record ScriptContext : Type := mkScriptContext {
  slanguage : option string;     (* [context.language] *)
  scode : string;
  sposition : Position;
  sline : string
}.

Section Dispatch.

Context {Tree Annotated : Type}.
Variable env : Collaborators Tree Annotated.

(** The language of the script and the line its code starts at, or the
    early [return false]. *)
Definition scriptHeader (context : ScriptContext)
    (codeLines : list RangedLine) : option (nat * string) :=
  match slanguage context with
  | Some (String c l) => Some (0, String c l)
  | _ =>
      if (length codeLines <? 2)%nat then None
      else
        match codeLines with
        | first :: _ =>
            match headerLanguage (substring first) None with
            | Some language => Some (1, language)
            | None => None
            end
        | [] => None
        end
  end.

Definition automationFromGoodParseScript (kind : Kind)
    (context : ScriptContext) : Automation :=
  let codeLines := rangedLines env (scode context) in
  match scriptHeader context codeLines with
  | None => NoAutomation
  | Some (codeStartLine, language) =>
      match nth_error codeLines codeStartLine,
            nth_error codeLines (length codeLines - 1) with
      | Some first, Some final =>
          let mappedCode :=
            take (range_end final - range_start first)
                 (drop (range_start first) (scode context)) in
          match partitionCellOptionsMapped env language mappedCode with
          | None => NoAutomation
          | Some yaml =>
              let commentPrefix :=
                (kLangCommentChars env language ++ "| ")%string in
              let context' :=
                mkContext
                  (drop (String.length commentPrefix) (sline context))
                  (mkPosition
                     (row (sposition context) - Z.of_nat codeStartLine)
                     (column (sposition context)
                      - Z.of_nat (String.length commentPrefix)))
                  (languageSchema env language)
                  yaml
                  (Some commentPrefix) in
              match kind with
              | KCompletions =>
                  if positionInTicks context' then NoAutomation
                  else ofCompletions
                         (completionsFromGoodParseYAML env
                            (trimTicks context'))
              | KValidation =>
                  LintsOf (validationFromGoodParseYAML env
                             (trimTicks context'))
              end
          end
      | _, _ => Threw "TypeError"
      end
  end.

(** ** automationFromGoodParseMarkdown *)

Definition adjustedCellSize (cell : MappedCell) : Z :=
  let cellLines := lines (msource cell) in
  let size := Z.of_nat (length cellLines) in
  match mcell_type cell with
  | MdRaw | MdMarkdown =>
      if blankLine (last cellLines EmptyString) then (size - 1)%Z else size
  | _ => (size + 2)%Z
  end.

Definition frontMatterContext (context : Context) (cell : MappedCell)
  : Context :=
  mkContext (line context) (position context) (frontMatterSchema env)
            (msource cell) None.

(** The loop of the validation branch. *)
Fixpoint lintCells (context : Context) (cells : list MappedCell)
    (linesSoFar : Z) (lints : list Lint) : Automation :=
  match cells with
  | [] => LintsOf lints
  | cell :: rest =>
      let next := (linesSoFar + adjustedCellSize cell)%Z in
      let inner :=
        match mcell_type cell with
        | MdRaw =>
            automationFromGoodParseYAML env KValidation
              (trimTicks (frontMatterContext context cell))
        | MdCode (String c l) =>
            automationFromGoodParseScript KValidation
              (mkScriptContext (Some (String c l)) (msource cell)
                 (mkPosition (row (position context) - (linesSoFar + 1))
                             (column (position context)))
                 (line context))
        | _ => NoAutomation
        end in
      match inner with
      | LintsOf innerLints => lintCells context rest next (lints ++ innerLints)
      | Threw message => Threw message
      | _ => lintCells context rest next lints
      end
  end.

Definition automationFromGoodParseMarkdown (kind : Kind) (context : Context)
  : Automation :=
  let result := breakQuartoMdMapped env (code context) in
  match kind with
  | KCompletions =>
      match find (fun cell =>
                    (row (position context)
                     <? adjustedCellSize cell + cellStartLine cell)%Z)
                 result with
      | None => NoAutomation
      | Some foundCell =>
          match mcell_type foundCell with
          | MdRaw =>
              let context' := frontMatterContext context foundCell in
              if positionInTicks context' then NoAutomation
              else automationFromGoodParseYAML env kind
                     (trimTicks context')
          | MdCode (String c l) =>
              automationFromGoodParseScript kind
                (mkScriptContext (Some (String c l)) (msource foundCell)
                   (mkPosition
                      (row (position context) - cellStartLine foundCell)
                      (column (position context)))
                   (line context))
          | MdMarkdown => NoAutomation
          | _ => Threw "internal error, don't know how to complete cell"
          end
      end
  | KValidation => lintCells context result 0 []
  end.

End Dispatch.

(** ** Notions used to state the properties of the automation *)

(** Non-decreasing order of the values under [localeCompare]. *)
Definition valueLe {Tree Annotated} (env : Collaborators Tree Annotated)
    (a b : Completion) : Prop :=
  (compareCompletions env a b <= 0)%Z.

(** [localeCompare] orders the strings: any two are comparable, and the
    comparison is transitive. *)
Definition ordersStrings (cmp : string -> string -> Z) : Prop :=
  (forall a b, (cmp a b <= 0)%Z \/ (cmp b a <= 0)%Z)
  /\ (forall a b c, (cmp a b <= 0)%Z -> (cmp b c <= 0)%Z -> (cmp a c <= 0)%Z).

(** An attempt on which [completionsFromGoodParseYAML] answers: what is
    left of the line is blank, or the parse can be annotated. *)
Definition answersCompletion {Tree Annotated}
    (env : Collaborators Tree Annotated) (context : Context)
    (a : ParseAttempt Tree) : bool :=
  blankLine (dropLast (line context) (deletions a))
  || match buildAnnotated env (parse a) (attemptCode a) with
     | Some _ => true
     | None => false
     end.

(** An attempt on which [validationFromGoodParseYAML] answers. *)
Definition answersValidation {Tree Annotated}
    (env : Collaborators Tree Annotated) (a : ParseAttempt Tree) : bool :=
  match buildAnnotated env (parse a) (attemptCode a) with
  | Some _ => true
  | None => false
  end.

(** A completion request that yields [result]: through the YAML
    completer itself or through one of the handlers that lead to it. *)
Definition yieldsResult {Tree Annotated}
    (env : Collaborators Tree Annotated) (result : CompletionResult)
  : Prop :=
  (exists context, completionsFromGoodParseYAML env context = Some result)
  \/ (exists context,
        automationFromGoodParseYAML env KCompletions context
        = CompletionsOf result)
  \/ (exists context,
        automationFromGoodParseScript env KCompletions context
        = CompletionsOf result)
  \/ (exists context,
        automationFromGoodParseMarkdown env KCompletions context
        = CompletionsOf result).

(** The cursor row is on the opening delimiter (row 0 of a block whose
    text starts with three dashes) or on the closing one (the last line
    of a block whose trimmed text ends with three dashes). *)
Definition onDelimiterLine (code : string) (cursorRow : Z) : Prop :=
  (startsWith code "---" = true /\ cursorRow = 0%Z)
  \/ (endsWith (trimEnd code) "---" = true
      /\ cursorRow = (Z.of_nat (length (lines code)) - 1)%Z).

(** The options [partitionCellOptionsMapped] finds in the code of a
    script, with the language and the first line of the code. *)
Definition optionsOf {Tree Annotated}
    (env : Collaborators Tree Annotated) (request : ScriptContext)
  : option (nat * string * string) :=
  let codeLines := rangedLines env (scode request) in
  match scriptHeader request codeLines with
  | Some (codeStartLine, language) =>
      match nth_error codeLines codeStartLine,
            nth_error codeLines (length codeLines - 1) with
      | Some first, Some final =>
          match partitionCellOptionsMapped env language
                  (take (range_end final - range_start first)
                        (drop (range_start first) (scode request))) with
          | Some yaml => Some (codeStartLine, language, yaml)
          | None => None
          end
      | _, _ => None
      end
  | None => None
  end.

(** The cell the dispatcher finds under the cursor. *)
Definition cellUnderCursor {Tree Annotated}
    (env : Collaborators Tree Annotated) (context : Context)
  : option MappedCell :=
  find (fun cell =>
          (row (position context)
           <? adjustedCellSize cell + cellStartLine cell)%Z)
       (breakQuartoMdMapped env (code context)).

(** ** Collaborators for the examples *)

(** Comparison of strings by code units, standing for [localeCompare]
    in the examples. *)
Fixpoint codeUnitCompare (a b : string) : Z :=
  match a, b with
  | EmptyString, EmptyString => 0%Z
  | EmptyString, String _ _ => (-1)%Z
  | String _ _, EmptyString => 1%Z
  | String x a', String y b' =>
      if Ascii.eqb x y then codeUnitCompare a' b'
      else (Z.of_nat (nat_of_ascii x) - Z.of_nat (nat_of_ascii y))%Z
  end.

(** The completions a schema offers in the examples: the keys of an
    object, [true] and [false] for a boolean, the values of an enum. *)
Definition exampleCompletions (s : Schema) : list Completion :=
  match s with
  | SObject properties _ =>
      map (fun p => mkCompletion KeyCompletion (fst p ++ ": ") true s)
          properties
  | SScalar type enum =>
      if (type =? "boolean")%string then
        [mkCompletion ValueCompletion "true" false s;
         mkCompletion ValueCompletion "false" false s]
      else map (fun v => mkCompletion ValueCompletion v false s) enum
  | _ => []
  end.

Definition exampleSchemaType (s : option Schema) : string :=
  match s with
  | Some (SObject _ _) => "object"
  | Some (SArray _) => "array"
  | Some (SScalar type _) => type
  | Some (SUnion _) => "anyOf"
  | None => "undefined"
  end.

(** Line ranges of a text whose lines end in a line feed. *)
Fixpoint rangesFrom (start : nat) (ls : list string) : list RangedLine :=
  match ls with
  | [] => []
  | l :: rest =>
      mkRanged l start (start + String.length l)
      :: rangesFrom (start + String.length l + 1) rest
  end.

(** Collaborators over trivial trees: the parser accepts what [accept]
    accepts, every tree is annotated, the cursor is located at [path],
    the options of a cell are [yaml] and the document has the cells
    [cells]. *)
Definition exampleCollaborators (accept : string -> bool)
    (path : list Segment) (yaml : option string) (cells : list MappedCell)
  : Collaborators unit unit :=
  mkCollaborators unit unit
    (fun s => if accept s then Some tt else None)
    (fun _ _ => Some tt)
    (fun _ _ => (false, path))
    (fun _ _ _ => [])
    (fun _ _ => 0%Z)
    exampleCompletions
    exampleSchemaType
    (fun _ _ _ => [])
    codeUnitCompare
    (fun _ => cells)
    (fun code => rangesFrom 0 (lines code))
    (fun _ _ => yaml)
    (fun _ => "#")
    (SObject [("title", SScalar "string" [])] [])
    (fun _ => SObject [("echo", SScalar "boolean" [])] []).

(* ================================================================== *)
(** * validate-document.ts *)
(* ================================================================== *)

(** What a [throw] carries: a [ValidationError] with its errors, or any
    other error. *)
Inductive Thrown : Type :=
| ThrownError (message : string)
| ThrownValidationError (validationErrors : list LocalizedError).

Inductive Outcome (A : Type) : Type :=
| Returned (a : A)
| Raised (e : Thrown).
Arguments Returned {A}.
Arguments Raised {A}.

(** What validate-document.ts imports from elsewhere. *)
Record DocumentCollaborators (Annotated : Type) : Type :=
  mkDocumentCollaborators {
  (* [breakQuartoMd(asMappedString(src))] *)
  docCells : string -> list MappedCell;
  docRangedLines : string -> list RangedLine;
  readAnnotatedYamlFromMappedString : string -> Outcome Annotated;
  (* [fmValidation.errors]; [None] when [fmValidation] is falsy *)
  validateParseWithErrors : string -> Annotated
                            -> option (list LocalizedError);
  (* [languageOptionsSchema[lang]]; [None] for [undefined] *)
  languageOptionsSchema : string -> option Schema;
  (* [partitionCellOptionsMapped(lang, cell.source, true)] *)
  partitionCellOptions : string -> string -> Outcome unit
}.
Arguments docCells {Annotated}.
Arguments docRangedLines {Annotated}.
Arguments readAnnotatedYamlFromMappedString {Annotated}.
Arguments validateParseWithErrors {Annotated}.
Arguments languageOptionsSchema {Annotated}.
Arguments partitionCellOptions {Annotated}.

Definition expectedEnd : string := "Expected front matter to end with '---'".

Section ValidateDocument.

Context {Annotated : Type}.
Variable env : DocumentCollaborators Annotated.

(** The branch taken when the first cell starts with three dashes. *)
Definition validateFrontMatter (firstCell : MappedCell)
  : Outcome (list LocalizedError) :=
  let value := msource firstCell in
  if negb (endsWith value "---") then Raised (ThrownError expectedEnd)
  else
    let lineRanges := docRangedLines env value in
    match nth_error lineRanges 1,
          nth_error lineRanges (length lineRanges - 2) with
    | Some second, Some beforeLast =>
        let frontMatterText :=
          take (range_end beforeLast - range_start second)
               (drop (range_start second) value) in
        match readAnnotatedYamlFromMappedString env frontMatterText with
        | Raised e => Raised e
        | Returned annotation =>
            match validateParseWithErrors env frontMatterText annotation with
            | Some errors => Returned errors
            | None => Returned []
            end
        end
    | _, _ => Raised (ThrownError "TypeError")
    end.

(** The loop over the content cells. *)
Fixpoint validateCells (cells : list MappedCell)
    (result : list LocalizedError) : Outcome (list LocalizedError) :=
  match cells with
  | [] => Returned result
  | cell :: rest =>
      match mcell_type cell with
      | MdCode lang =>
          match languageOptionsSchema env lang with
          | None => validateCells rest result
          | Some _ =>
              match partitionCellOptions env lang (msource cell) with
              | Returned _ => validateCells rest result
              | Raised (ThrownValidationError errors) =>
                  validateCells rest (result ++ errors)
              | Raised e => Raised e
              end
          end
      | _ => validateCells rest result
      end
  end.

Definition validateDocumentFromSource (src : string)
  : Outcome (list LocalizedError) :=
  match docCells env src with
  | [] => Returned []
  | firstCell :: rest =>
      if startsWith (msource firstCell) "---" then
        match validateFrontMatter firstCell with
        | Raised e => Raised e
        | Returned errors => validateCells rest errors
        end
      else validateCells (firstCell :: rest) []
  end.

(** ** Notions used to state its properties *)

(** What the option validation of a cell does, when it is run. *)
Definition cellOutcome (cell : MappedCell) : Outcome unit :=
  match mcell_type cell with
  | MdCode lang =>
      match languageOptionsSchema env lang with
      | Some _ => partitionCellOptions env lang (msource cell)
      | None => Returned tt
      end
  | _ => Returned tt
  end.

(** The errors of the [ValidationError] a cell raises, if it does. *)
Definition caughtErrors (cell : MappedCell) : list LocalizedError :=
  match cellOutcome cell with
  | Raised (ThrownValidationError errors) => errors
  | _ => []
  end.

(** No cell raises anything but a [ValidationError]. *)
Definition onlyValidationErrors (cells : list MappedCell) : Prop :=
  Forall (fun cell => forall m, cellOutcome cell <> Raised (ThrownError m))
         cells.

(** The first cell starts with three dashes and does not end with them. *)
Definition unclosedFrontMatter (src : string) : bool :=
  match docCells env src with
  | firstCell :: _ =>
      startsWith (msource firstCell) "---"
      && negb (endsWith (msource firstCell) "---")
  | [] => false
  end.

End ValidateDocument.

Definition throws {A} (o : Outcome A) : bool :=
  match o with
  | Raised _ => true
  | Returned _ => false
  end.

(** Collaborators for the examples: the document has the cells [cells],
    every language has a schema, and the options of a cell are handled
    by [partition]. *)
Definition exampleDocument (cells : list MappedCell)
    (partition : string -> string -> Outcome unit)
  : DocumentCollaborators unit :=
  mkDocumentCollaborators unit
    (fun _ => cells)
    (fun code => rangesFrom 0 (lines code))
    (fun _ => Returned tt)
    (fun _ _ => Some [])
    (fun _ => Some (SObject [("echo", SScalar "boolean" [])] []))
    partition.

(* ================================================================== *)
(** * Notions used to state further properties *)
(* ================================================================== *)

(** The lines without the blank ones at the front. *)
Fixpoint dropBlank (l : list string) : list string :=
  match l with
  | [] => []
  | x :: r => if blankLine x then dropBlank r else l
  end.

(** The lines without the blank ones at the back. *)
Fixpoint dropBlankEnd (l : list string) : list string :=
  match l with
  | [] => []
  | x :: r =>
      match dropBlankEnd r with
      | [] => if blankLine x then [] else [x]
      | r' => x :: r'
      end
  end.

(** A line that [processLine] only appends to the buffer in the state
    [st]: it opens no cell of the target language and no fence, and it
    is no front-matter delimiter unless the state is inside code. *)
Definition plainLine (language : string) (st : SegState) (line : string)
  : bool :=
  negb (startCodeCellRegEx language line)
  && negb (startCodeRegEx line)
  && (negb (yamlRegEx line) || inCodeCell st || inCode st).

(** The segmenter is between blocks: nothing is buffered and it is
    neither in front matter nor in code. *)
Definition atRest (st : SegState) : Prop :=
  lineBuffer st = [] /\ inYaml st = false
  /\ inCodeCell st = false /\ inCode st = false.

(** Two states that differ only by cells emitted earlier (and by the
    flag [parsedFrontMatter], which nothing reads). *)
Definition sameFrom (pre : list QuartoMdCell) (st1 st2 : SegState) : Prop :=
  cells st1 = pre ++ cells st2
  /\ lineBuffer st1 = lineBuffer st2
  /\ inYaml st1 = inYaml st2
  /\ inCodeCell st1 = inCodeCell st2
  /\ inCode st1 = inCode st2.

(** What is left of a buffer when it is flushed. *)
Definition trimmedSource (buf : list string) : list string :=
  mdTrimEmptyLines (cellSource (spliceLastEmpty (spliceFirstEmpty buf))).

(** A line of prose: no front-matter delimiter and no opening fence of
    the target language. *)
Definition proseLine (language line : string) : bool :=
  negb (yamlRegEx line) && negb (startCodeCellRegEx language line).

(** A line inside a block: no front-matter delimiter and no fence. *)
Definition innerLine (language line : string) : bool :=
  negb (yamlRegEx line) && negb (startCodeCellRegEx language line)
  && negb (startCodeRegEx line).

(** A line inside a code cell: no fence. *)
Definition codeLine (language line : string) : bool :=
  negb (startCodeCellRegEx language line) && negb (startCodeRegEx line).

(** A run of backticks. *)
Fixpoint allBackticks (s : string) : bool :=
  match s with
  | EmptyString => true
  | String c r => Ascii.eqb c "`" && allBackticks r
  end.

(** No line terminator in the text. *)
Fixpoint noLineTerminator (s : string) : bool :=
  match s with
  | EmptyString => true
  | String c r => negb (isLineTerminator c) && noLineTerminator r
  end.

(** Lower-case letters only. *)
Fixpoint allLower (s : string) : bool :=
  match s with
  | EmptyString => true
  | String c r =>
      Nat.leb 97 (nat_of_ascii c) && Nat.leb (nat_of_ascii c) 122
      && allLower r
  end.

(** The same request with another schema. *)
Definition withSchema (context : Context) (s : Schema) : Context :=
  mkContext (line context) (position context) s (code context)
            (commentPrefix context).


(** A closing delimiter with what may follow it: three dashes, then
    white space only. *)
Definition closingDelimiter (s : string) : bool :=
  match stripPrefix "---" s with
  | Some rest => allWhiteSpace rest
  | None => false
  end.

(** The second step of [trimTicks], on the context its first step
    leaves. *)
Definition trimClosing (context : Context) : Context :=
  if endsWith (trimEnd (code context)) "---"
  then withCode context
         (match lastIndexOf (code context) "---" with
          | Some i => take i (code context)
          | None => EmptyString
          end)
  else context.

(** ** Document validation *)

(** [validateDocument], on the Markdown of the render target. *)
Definition validateDocument {Annotated : Type}
    (env : DocumentCollaborators Annotated) (markdown : string)
  : Outcome (list LocalizedError) :=
  if (markdown =? "")%string then Returned []
  else validateDocumentFromSource env markdown.

(** The text handed to the front-matter parser: from the start of the
    second line of the cell to the end of the line before the last. *)
Definition frontMatterText {Annotated : Type}
    (env : DocumentCollaborators Annotated) (firstCell : MappedCell)
  : option string :=
  let lineRanges := docRangedLines env (msource firstCell) in
  match nth_error lineRanges 1,
        nth_error lineRanges (length lineRanges - 2) with
  | Some second, Some beforeLast =>
      Some (take (range_end beforeLast - range_start second)
                 (drop (range_start second) (msource firstCell)))
  | _, _ => None
  end.

(** The cell is passed over by the loop: it is no code cell, or its
    language has no schema of options. *)
Definition passedOver {Annotated : Type}
    (env : DocumentCollaborators Annotated) (cell : MappedCell) : bool :=
  match mcell_type cell with
  | MdCode lang =>
      match languageOptionsSchema env lang with
      | None => true
      | Some _ => false
      end
  | _ => true
  end.

(** ** The entry point of the editor tools *)

(** [path.split(".").pop() || ""]: what follows the last dot of the
    path, the whole path when it has no dot. *)
Fixpoint extensionOf (path : string) : string :=
  match path with
  | EmptyString => EmptyString
  | String c r =>
      if includes r "." then extensionOf r
      else if Ascii.eqb c "." then r else path
  end.

(** What the editor sends. *)
Record Request : Type := mkRequest {
  rpath : string;
  rfiletype : string;
  rcode : string;
  rline : string;
  rposition : Position;
  rlanguage : option string;
  rcommentPrefix : option string
}.

(** What the editor gets back: [null] for every falsy result, the result
    otherwise (an empty array of lints is truthy), or a rejection. *)
Inductive Answer : Type :=
| Null
| Completions (result : CompletionResult)
| Lints (lints : list Lint)
| Rejected (message : string).

Definition orNull (result : option Automation) : Answer :=
  match result with
  | None | Some NoAutomation => Null
  | Some (CompletionsOf r) => Completions r
  | Some (LintsOf l) => Lints l
  | Some (Threw message) => Rejected message
  end.

(** The schema of a request that has none ([null]); the handlers of
    Markdown and of scripts never read it. *)
Definition noSchema : Schema := SScalar "null" [].

Section EntryPoint.

Context {Tree Annotated : Type}.
Variable env : Collaborators Tree Annotated.
(* [schemas.config] *)
Variable configSchema : Schema.

Definition requestContext (request : Request) (s : option Schema) : Context :=
  mkContext (rline request) (rposition request)
            (match s with Some s => s | None => noSchema end)
            (rcode request) (rcommentPrefix request).

Definition requestScript (request : Request) : ScriptContext :=
  mkScriptContext (rlanguage request) (rcode request) (rposition request)
                  (rline request).

(** [null] is [None]. *)
Definition automationFileTypeDispatch (filetype : string) (kind : Kind)
    (request : Request) (s : option Schema) : option Automation :=
  if (filetype =? "markdown")%string then
    Some (automationFromGoodParseMarkdown env kind (requestContext request s))
  else if (filetype =? "yaml")%string then
    Some (automationFromGoodParseYAML env kind (requestContext request s))
  else if (filetype =? "script")%string then
    Some (automationFromGoodParseScript env kind (requestScript request))
  else None.

Definition getAutomation (kind : Kind) (request : Request) : Answer :=
  let extension := extensionOf (rpath request) in
  let s :=
    if (rfiletype request =? "yaml")%string then
      Some (if (extension =? "qmd")%string then frontMatterSchema env
            else configSchema)
    else None in
  orNull (automationFileTypeDispatch (rfiletype request) kind request s).

End EntryPoint.

(** The same request for another file. *)
Definition withPath (request : Request) (path : string) : Request :=
  mkRequest path (rfiletype request) (rcode request) (rline request)
            (rposition request) (rlanguage request) (rcommentPrefix request).
(* ================================================================== *)
(** * Facts about strings *)
(* ================================================================== *)

Section StringFacts.

Lemma stripPrefix_Some p : forall s r,
  stripPrefix p s = Some r -> s = (p ++ r)%string.
Proof.
  induction p as [|a p IH]; intros s r H; simpl in *.
  - congruence.
  - destruct s as [|b s]; [discriminate|].
    destruct (Ascii.eqb_spec a b); [|discriminate].
    subst. f_equal. now apply IH.
Qed.

Lemma trimStart_allWhiteSpace s :
  allWhiteSpace s = true -> trimStart s = EmptyString.
Proof.
  induction s as [|c s IH]; simpl; auto.
  destruct (isWhiteSpace c); simpl; auto. discriminate.
Qed.

Lemma allWhiteSpace_trimStart s :
  allWhiteSpace (trimStart s) = allWhiteSpace s.
Proof.
  induction s as [|c s IH]; simpl; auto.
  destruct (isWhiteSpace c) eqn:E; simpl; auto. now rewrite E.
Qed.

Lemma trimEnd_empty s :
  trimEnd s = EmptyString <-> allWhiteSpace s = true.
Proof.
  induction s as [|c s IH]; simpl; [tauto|].
  destruct (trimEnd s) eqn:E.
  - destruct (isWhiteSpace c); simpl.
    + split; auto. intros _. now apply IH.
    + split; discriminate.
  - split; [discriminate|].
    intros H. apply andb_true_iff in H as [_ H].
    apply IH in H. discriminate.
Qed.

(** [line.trim().length > 0] holds when some character of the line is not
    white space. *)
Lemma nonEmptyLine_spec line :
  nonEmptyLine line = negb (allWhiteSpace line).
Proof.
  unfold nonEmptyLine, trim.
  rewrite <- (allWhiteSpace_trimStart line).
  destruct (allWhiteSpace (trimStart line)) eqn:E.
  - apply trimEnd_empty in E. now rewrite E.
  - destruct (trimEnd (trimStart line)) eqn:T; [|reflexivity].
    assert (H : allWhiteSpace (trimStart line) = true)
      by now apply trimEnd_empty.
    congruence.
Qed.

Lemma allWhiteSpace_app s t :
  allWhiteSpace (s ++ t)%string = allWhiteSpace s && allWhiteSpace t.
Proof.
  induction s as [|c s IH]; simpl; auto.
  now rewrite IH, andb_assoc.
Qed.

Lemma blankLine_nl line : blankLine (line ++ nl)%string = blankLine line.
Proof.
  unfold blankLine. rewrite !nonEmptyLine_spec, allWhiteSpace_app.
  simpl. now rewrite andb_true_r.
Qed.

Lemma chomp_nl s : hasLF s = false -> chomp (s ++ nl)%string = s.
Proof.
  induction s as [|c s IH]; simpl; auto.
  intros H. apply orb_false_iff in H as [Hc Hs].
  destruct s as [|d s]; simpl in *.
  - reflexivity.
  - f_equal. now apply IH.
Qed.

Lemma chomp_noLF s : hasLF s = false -> chomp s = s.
Proof.
  induction s as [|c s IH]; simpl; auto.
  intros H. apply orb_false_iff in H as [Hc Hs].
  destruct s as [|d s]; simpl in *.
  - now rewrite Hc.
  - f_equal. now apply IH.
Qed.

Lemma append_empty_r s : (s ++ "")%string = s.
Proof. induction s; simpl; congruence. Qed.

End StringFacts.

(* ================================================================== *)
(** * Facts about the flush *)
(* ================================================================== *)

Section FlushFacts.

Lemma findIndex_spec {A} (p : A -> bool) (l : list A) :
  let i := findIndex p l in
  (i = (-1)%Z /\ forallb (fun x => negb (p x)) l = true)
  \/ ((0 <= i)%Z /\
      forallb (fun x => negb (p x)) (firstn (Z.to_nat i) l) = true).
Proof.
  induction l as [|x l IH]; simpl.
  - left; auto.
  - destruct (p x) eqn:Px.
    + right. simpl. split; [lia | reflexivity].
    + destruct IH as [[E H] | [E H]].
      * left. rewrite E. simpl. rewrite ?Px, ?H. auto.
      * right. destruct (Z.eqb_spec (findIndex p l) (-1)); [lia|].
        split; [lia|].
        replace (Z.to_nat (findIndex p l + 1))
          with (S (Z.to_nat (findIndex p l))) by lia.
        simpl. rewrite ?Px, ?H. reflexivity.
Qed.

Lemma lastNonEmptyIndex_spec (l : list string) :
  let i := lastNonEmptyIndex l in
  (i = (-1)%Z /\ forallb blankLine l = true)
  \/ ((0 <= i)%Z /\
      forallb blankLine (skipn (Z.to_nat (i + 1)) l) = true).
Proof.
  induction l as [|x l IH]; simpl.
  - left; auto.
  - destruct IH as [[E H] | [E H]].
    + rewrite E. simpl. unfold blankLine at 1.
      destruct (nonEmptyLine x) eqn:Nx; simpl.
      * right. split; [lia | exact H].
      * left. auto.
    + destruct (Z.gtb_spec (lastNonEmptyIndex l) (-1)); [|lia].
      right. split; [lia|].
      replace (Z.to_nat (lastNonEmptyIndex l + 1 + 1))
        with (S (Z.to_nat (lastNonEmptyIndex l + 1))) by lia.
      exact H.
Qed.

(** What [mdTrimEmptyLines] removes are blank lines at both ends. *)
Lemma mdTrimEmptyLines_spec (l : list string) :
  exists a b,
    l = a ++ mdTrimEmptyLines l ++ b
    /\ forallb blankLine a = true /\ forallb blankLine b = true.
Proof.
  unfold mdTrimEmptyLines.
  destruct (findIndex_spec nonEmptyLine l) as [[E H] | [E H]].
  - rewrite E. simpl. exists l, []. now rewrite app_nil_r.
  - destruct (Z.eqb_spec (findIndex nonEmptyLine l) (-1)); [lia|].
    unfold sliceFrom, sliceTo.
    set (i := Z.to_nat (findIndex nonEmptyLine l)) in *.
    set (l1 := skipn i l).
    destruct (lastNonEmptyIndex_spec l1) as [[E1 H1] | [E1 H1]].
    + rewrite E1. simpl. exists (firstn i l), [].
      rewrite app_nil_r. unfold l1. now rewrite firstn_skipn.
    + destruct (Z.gtb_spec (lastNonEmptyIndex l1) (-1)); [|lia].
      exists (firstn i l), (skipn (Z.to_nat (lastNonEmptyIndex l1 + 1)) l1).
      rewrite firstn_skipn. unfold l1. now rewrite firstn_skipn.
Qed.

Lemma spliceFirstEmpty_spec (buf : list string) :
  exists g, buf = g ++ spliceFirstEmpty buf /\ forallb blankLine g = true.
Proof.
  destruct buf as [|first rest]; simpl.
  - exists []. auto.
  - destruct (String.eqb_spec first "").
    + subst. exists [""]. auto.
    + exists []. auto.
Qed.

Lemma spliceLastEmpty_spec (buf : list string) :
  exists g, buf = spliceLastEmpty buf ++ g /\ forallb blankLine g = true.
Proof.
  destruct buf as [|x buf]; [exists []; auto|].
  unfold spliceLastEmpty.
  destruct (String.eqb_spec (last (x :: buf) "x") "") as [E|E].
  - exists [""]. split; [|reflexivity].
    rewrite <- E. apply app_removelast_last. discriminate.
  - exists []. now rewrite app_nil_r.
Qed.

Lemma mapi_from_chomp (n : nat) (l : list string) : forall i,
  Forall (fun s => hasLF s = false) l ->
  map chomp (mapi_from i
    (fun line index =>
       (line ++ (if (index <? n)%nat then nl else ""))%string) l) = l.
Proof.
  induction l as [|x l IH]; intros i H; simpl; auto.
  inversion H; subst. f_equal; [|now apply IH].
  destruct (i <? n)%nat.
  - now apply chomp_nl.
  - rewrite append_empty_r. now apply chomp_noLF.
Qed.

Lemma cellSource_chomp (buf : list string) :
  Forall (fun s => hasLF s = false) buf ->
  map chomp (cellSource buf) = buf.
Proof. apply mapi_from_chomp. Qed.

Lemma mapi_from_blank (n : nat) (l : list string) : forall i,
  Forall (fun s => hasLF s = false) l ->
  Forall (fun x => blankLine (chomp x) = blankLine x)
    (mapi_from i
      (fun line index =>
         (line ++ (if (index <? n)%nat then nl else ""))%string) l).
Proof.
  induction l as [|x l IH]; intros i H; simpl; auto.
  inversion H; subst. constructor; [|now apply IH].
  destruct (i <? n)%nat.
  - rewrite chomp_nl by assumption. now rewrite blankLine_nl.
  - rewrite append_empty_r. now rewrite chomp_noLF.
Qed.

Lemma forallb_blank_chomp (l : list string) :
  Forall (fun x => blankLine (chomp x) = blankLine x) l ->
  forallb blankLine l = true ->
  forallb blankLine (map chomp l) = true.
Proof.
  induction 1 as [|x l Hx _ IH]; simpl; auto.
  intros H. apply andb_true_iff in H as [H1 H2].
  rewrite Hx, H1. now apply IH.
Qed.

Lemma flushLineBuffer_eq language kind fm st :
  flushLineBuffer language kind fm st =
  mkState (cells st ++ flushed language kind (lineBuffer st)) []
          (parsedFrontMatter st) (inYaml st) (inCodeCell st) (inCode st).
Proof.
  unfold flushLineBuffer, flushed.
  destruct st as [cs buf pf y cc c]; simpl.
  destruct buf as [|x buf]; [now rewrite app_nil_r|].
  unfold newCells.
  destruct (mdTrimEmptyLines _) as [|s src]; simpl.
  - now rewrite app_nil_r.
  - reflexivity.
Qed.

(** A flush keeps one contiguous run of the buffer, between blank lines,
    as the lines of at most one new cell. *)
Lemma flushed_spec language kind (buf : list string) :
  Forall (fun s => hasLF s = false) buf ->
  exists g1 c g2,
    buf = g1 ++ c ++ g2
    /\ forallb blankLine g1 = true /\ forallb blankLine g2 = true
    /\ map cellLines (flushed language kind buf)
       = match c with [] => [] | _ :: _ => [c] end.
Proof.
  intros Hlf. unfold flushed.
  destruct buf as [|x0 buf0]; [exists [], [], []; auto|].
  set (buf := x0 :: buf0) in *.
  destruct (spliceFirstEmpty_spec buf) as (h1 & E1 & B1).
  destruct (spliceLastEmpty_spec (spliceFirstEmpty buf)) as (h2 & E2 & B2).
  set (mid := spliceLastEmpty (spliceFirstEmpty buf)) in *.
  assert (Hmid : Forall (fun s => hasLF s = false) mid).
  { rewrite E1, E2 in Hlf.
    apply Forall_app in Hlf as [_ Hlf].
    now apply Forall_app in Hlf as [Hlf _]. }
  destruct (mdTrimEmptyLines_spec (cellSource mid)) as (a & b & E3 & Ba & Bb).
  pose proof (cellSource_chomp mid Hmid) as Hch.
  assert (Hbl : Forall (fun x => blankLine (chomp x) = blankLine x)
                        (cellSource mid))
    by exact (mapi_from_blank (length mid - 1) mid 0 Hmid).
  set (res := mdTrimEmptyLines (cellSource mid)) in *.
  rewrite E3 in Hch, Hbl.
  rewrite !map_app in Hch.
  apply Forall_app in Hbl as [Hbla Hbl].
  apply Forall_app in Hbl as [_ Hblb].
  exists (h1 ++ map chomp a), (map chomp res), (map chomp b ++ h2).
  repeat split.
  - rewrite E1, E2, <- Hch. now rewrite <- !app_assoc.
  - rewrite forallb_app, B1. simpl. now apply forallb_blank_chomp.
  - rewrite forallb_app, B2, andb_true_r. now apply forallb_blank_chomp.
  - unfold newCells. destruct res; reflexivity.
Qed.

Lemma flushed_cell_type language kind buf :
  Forall (fun c => cell_type c = cellTypeOf language kind
                   /\ source c <> [])
         (flushed language kind buf).
Proof.
  unfold flushed. destruct buf; [constructor|].
  unfold newCells. destruct (mdTrimEmptyLines _); constructor; simpl; auto.
  split; [reflexivity | discriminate].
Qed.

Lemma flushed_length language kind buf :
  length (flushed language kind buf) <= 1.
Proof.
  unfold flushed. destruct buf; simpl; [lia|].
  unfold newCells. destruct (mdTrimEmptyLines _); simpl; lia.
Qed.

End FlushFacts.

(* ================================================================== *)
(** * Cells as spans of the document *)
(* ================================================================== *)

Section Spans.

Variable gap : string -> bool.

Lemma Reassembles_gap_r doc chunks g :
  Reassembles gap doc chunks -> forallb gap g = true ->
  Reassembles gap (doc ++ g) chunks.
Proof.
  induction 1 as [g0 H0 | g0 chunk rest chunks H0 _ IH]; intros Hg.
  - constructor. now rewrite forallb_app, H0, Hg.
  - rewrite <- !app_assoc. constructor; auto.
Qed.

Lemma Reassembles_snoc doc chunks g chunk :
  Reassembles gap doc chunks -> forallb gap g = true ->
  Reassembles gap (doc ++ g ++ chunk) (chunks ++ [chunk]).
Proof.
  induction 1 as [g0 H0 | g0 c rest chunks H0 _ IH]; intros Hg; simpl.
  - replace (g0 ++ g ++ chunk) with ((g0 ++ g) ++ chunk ++ [])
      by now rewrite app_nil_r, app_assoc.
    constructor; [now rewrite forallb_app, H0, Hg | now constructor].
  - rewrite <- !app_assoc. constructor; auto.
Qed.

Lemma Reassembles_occupies rest chunks :
  Reassembles gap rest chunks ->
  forall pre, exists starts,
    Occupies (pre ++ rest) (length pre) starts chunks.
Proof.
  induction 1 as [g0 H0 | g0 c rest chunks H0 _ IH]; intros pre.
  - exists []. exact I.
  - destruct (IH (pre ++ g0 ++ c)) as [starts Hs].
    exists (length (pre ++ g0) :: starts). simpl.
    repeat split.
    + rewrite length_app. lia.
    + replace (pre ++ g0 ++ c ++ rest) with ((pre ++ g0) ++ c ++ rest)
        by now rewrite <- app_assoc.
      rewrite skipn_app, skipn_all, Nat.sub_diag. simpl.
      rewrite firstn_app, firstn_all, Nat.sub_diag. simpl.
      apply app_nil_r.
    + replace (length (pre ++ g0) + length c)
        with (length (pre ++ g0 ++ c))
        by (rewrite !length_app; lia).
      replace (pre ++ g0 ++ c ++ rest) with ((pre ++ g0 ++ c) ++ rest)
        by now rewrite <- !app_assoc.
      exact Hs.
Qed.

End Spans.

(* ================================================================== *)
(** * The segmenter's invariant *)
(* ================================================================== *)

Section Segmenter.

Variable language : string.

Lemma blank_gapLine g :
  forallb blankLine g = true -> forallb (gapLine language) g = true.
Proof.
  induction g as [|x g IH]; simpl; auto.
  intros H. apply andb_true_iff in H as [H1 H2].
  unfold gapLine at 1. now rewrite H1, IH.
Qed.

Lemma SegInv_ext done st st' :
  cells st' = cells st -> lineBuffer st' = lineBuffer st ->
  SegInv language done st -> SegInv language done st'.
Proof.
  intros Hc Hb (pre & E & R). exists pre. now rewrite Hc, Hb.
Qed.

Lemma SegInv_push done st line :
  SegInv language done st -> SegInv language (done ++ [line]) (push st line).
Proof.
  intros (pre & E & R). exists pre. simpl.
  now rewrite E, app_assoc.
Qed.

Lemma SegInv_skip done st line :
  lineBuffer st = [] -> gapLine language line = true ->
  SegInv language done st -> SegInv language (done ++ [line]) st.
Proof.
  intros Hb Hg (pre & E & R). exists (pre ++ [line]).
  rewrite Hb, app_nil_r in *. split; [now rewrite E|].
  apply Reassembles_gap_r; auto. simpl. now rewrite Hg.
Qed.

Lemma SegInv_flush done st kind fm :
  Forall (fun s => hasLF s = false) done ->
  SegInv language done st ->
  SegInv language done (flushLineBuffer language kind fm st).
Proof.
  intros Hlf (pre & E & R).
  rewrite flushLineBuffer_eq.
  assert (Hbuf : Forall (fun s => hasLF s = false) (lineBuffer st)).
  { rewrite E in Hlf. now apply Forall_app in Hlf as [_ Hlf]. }
  destruct (flushed_spec language kind _ Hbuf)
    as (g1 & c & g2 & Eb & B1 & B2 & Ec).
  exists done. simpl. split; [now rewrite app_nil_r|].
  rewrite map_app, Ec, E, Eb.
  destruct c as [|x c].
  - rewrite app_nil_r. simpl. apply Reassembles_gap_r; auto.
    rewrite forallb_app, !blank_gapLine; auto.
  - replace (pre ++ g1 ++ (x :: c) ++ g2)
      with ((pre ++ g1 ++ (x :: c)) ++ g2)
      by now rewrite <- !app_assoc.
    apply Reassembles_gap_r; [|now apply blank_gapLine].
    apply Reassembles_snoc; auto. now apply blank_gapLine.
Qed.

Lemma flush_lineBuffer st kind fm :
  lineBuffer (flushLineBuffer language kind fm st) = [].
Proof. now rewrite flushLineBuffer_eq. Qed.

Lemma Forall_noLF_init (done : list string) line :
  Forall (fun s => hasLF s = false) (done ++ [line]) ->
  Forall (fun s => hasLF s = false) done.
Proof. intros H. now apply Forall_app in H as [H _]. Qed.

Lemma SegInv_processLine done st line :
  Forall (fun s => hasLF s = false) (done ++ [line]) ->
  SegInv language done st ->
  SegInv language (done ++ [line]) (processLine language st line).
Proof.
  intros Hlf Hinv.
  pose proof (Forall_noLF_init _ _ Hlf) as Hdone.
  unfold processLine.
  destruct (yamlRegEx line && negb (inCodeCell st) && negb (inCode st)).
  { destruct (inYaml st).
    - eapply SegInv_ext; [reflexivity | reflexivity |].
      apply SegInv_flush; auto. now apply SegInv_push.
    - eapply SegInv_ext; [reflexivity | reflexivity |].
      apply SegInv_push. now apply SegInv_flush. }
  destruct (startCodeCellRegEx language line) eqn:Start.
  { eapply SegInv_ext; [reflexivity | reflexivity |].
    apply SegInv_skip.
    - apply flush_lineBuffer.
    - unfold gapLine. now rewrite Start, orb_true_r.
    - now apply SegInv_flush. }
  destruct (endCodeRegEx line) eqn:End.
  { destruct (inCodeCell st).
    - apply SegInv_skip.
      + apply flush_lineBuffer.
      + unfold gapLine. now rewrite End, orb_true_r.
      + apply SegInv_flush; auto.
    - apply (SegInv_push done (setInCode st (negb (inCode st)))).
      exact Hinv. }
  destruct (startCodeRegEx line).
  - apply (SegInv_push done (setInCode st true)). exact Hinv.
  - now apply SegInv_push.
Qed.

Lemma SegInv_fold ls : forall done st,
  Forall (fun s => hasLF s = false) (done ++ ls) ->
  SegInv language done st ->
  SegInv language (done ++ ls) (fold_left (processLine language) ls st).
Proof.
  induction ls as [|line ls IH]; intros done st Hlf Hinv; simpl.
  - now rewrite app_nil_r.
  - replace (done ++ line :: ls) with ((done ++ [line]) ++ ls) in *
      by now rewrite <- app_assoc.
    apply IH; auto.
    apply SegInv_processLine; auto.
    now apply Forall_app in Hlf as [Hlf _].
Qed.

Lemma segment_reassembles ls :
  Forall (fun s => hasLF s = false) ls ->
  Reassembles (gapLine language) ls (map cellLines (cells (segment language ls))).
Proof.
  intros Hlf. unfold segment.
  assert (Hinv : SegInv language ls
            (flushLineBuffer language FlushMarkdown false
               (fold_left (processLine language) ls initialState))).
  { apply SegInv_flush; auto.
    apply (SegInv_fold ls [] initialState); auto.
    exists []. split; [reflexivity | now constructor]. }
  destruct Hinv as (pre & E & R).
  rewrite flush_lineBuffer, app_nil_r in E. now subst.
Qed.

End Segmenter.

Section NonEmptyCells.

Variable language : string.

Lemma processLine_adds st line :
  exists kind buf,
    cells (processLine language st line)
    = cells st ++ flushed language kind buf.
Proof.
  unfold processLine.
  destruct (yamlRegEx line && negb (inCodeCell st) && negb (inCode st)).
  { destruct (inYaml st); simpl; rewrite flushLineBuffer_eq; simpl;
      eexists _, _; reflexivity. }
  destruct (startCodeCellRegEx language line).
  { simpl. rewrite flushLineBuffer_eq. simpl. eexists _, _; reflexivity. }
  destruct (endCodeRegEx line); [destruct (inCodeCell st)|].
  - rewrite flushLineBuffer_eq. simpl. eexists _, _; reflexivity.
  - exists FlushMarkdown, []. simpl. now rewrite app_nil_r.
  - destruct (startCodeRegEx line);
      exists FlushMarkdown, []; simpl; now rewrite app_nil_r.
Qed.

Lemma fold_nonempty ls : forall st,
  Forall (fun c => source c <> []) (cells st) ->
  Forall (fun c => source c <> [])
         (cells (fold_left (processLine language) ls st)).
Proof.
  induction ls as [|line ls IH]; intros st H; simpl; auto.
  apply IH. destruct (processLine_adds st line) as (kind & buf & ->).
  apply Forall_app. split; [exact H|].
  eapply Forall_impl; [|apply flushed_cell_type].
  simpl. now intros c [_ Hc].
Qed.

Lemma breakQuartoMd_nonempty src :
  Forall (fun c => source c <> []) (breakQuartoMd src language).
Proof.
  unfold breakQuartoMd, segment. rewrite flushLineBuffer_eq. simpl.
  apply Forall_app. split.
  - apply fold_nonempty. constructor.
  - eapply Forall_impl; [|apply flushed_cell_type].
    simpl. now intros c [_ Hc].
Qed.

End NonEmptyCells.

Lemma lines_noLF_bounded n : forall s,
  String.length s <= n -> Forall (fun l => hasLF l = false) (lines s).
Proof.
  induction n as [|n IH]; intros s Hn.
  - destruct s; [|simpl in Hn; lia]. repeat constructor.
  - destruct s as [|c r]; [repeat constructor|].
    simpl in Hn. simpl.
    destruct (Ascii.eqb c LF) eqn:Ec.
    { constructor; [reflexivity | apply IH; lia]. }
    destruct r as [|c2 r2]; [repeat constructor; simpl; now rewrite Ec|].
    destruct (Ascii.eqb c CR && Ascii.eqb c2 LF).
    { constructor; [reflexivity | apply IH; simpl in Hn; lia]. }
    assert (Hr : Forall (fun l => hasLF l = false) (lines (String c2 r2)))
      by (apply IH; lia).
    destruct (lines (String c2 r2)) as [|l ls].
    + repeat constructor. simpl. now rewrite Ec.
    + inversion Hr; subst. constructor; auto. simpl. now rewrite Ec.
Qed.

Lemma lines_noLF s : Forall (fun l => hasLF l = false) (lines s).
Proof. apply (lines_noLF_bounded (String.length s)). lia. Qed.

(* ================================================================== *)
(** * The regular expressions exclude one another *)
(* ================================================================== *)

Section RegExFacts.

Lemma skipBackticks_allWhiteSpace r :
  allWhiteSpace r = true -> skipBackticks r = r.
Proof.
  destruct r as [|c r]; simpl; auto.
  intros H. destruct (Ascii.eqb_spec c "`"); auto.
  subst. discriminate.
Qed.

Lemma endCode_not_yaml line :
  endCodeRegEx line = true -> yamlRegEx line = false.
Proof.
  unfold endCodeRegEx.
  destruct (stripPrefix "```" line) eqn:E; [|discriminate].
  apply stripPrefix_Some in E. subst. reflexivity.
Qed.

Lemma endCode_not_startCodeCell language line :
  endCodeRegEx line = true -> startCodeCellRegEx language line = false.
Proof.
  unfold endCodeRegEx.
  destruct (stripPrefix "```" line) eqn:E; [|discriminate].
  apply stripPrefix_Some in E. subst. intros H.
  unfold startCodeCellRegEx. simpl.
  rewrite (skipBackticks_allWhiteSpace _ H).
  now rewrite (trimStart_allWhiteSpace _ H).
Qed.

Lemma yaml_not_fence language line :
  yamlRegEx line = true ->
  startCodeCellRegEx language line = false
  /\ endCodeRegEx line = false /\ startCodeRegEx line = false.
Proof.
  unfold yamlRegEx.
  destruct (stripPrefix "---" line) eqn:E; [|discriminate].
  apply stripPrefix_Some in E. subst. intros _.
  repeat split; reflexivity.
Qed.

End RegExFacts.

(* ================================================================== *)
(** * Properties of the segmenter *)
(* ================================================================== *)

(** C1, as amended.  The lines of the cells of [breakQuartoMd], taken in
    order, are the document with some lines left out between the cells;
    every line left out is a blank line trimmed at an end of a cell, or
    a fence of a cell of the target language (its opening fence or the
    three backticks that close it).  Nothing else is lost and nothing is
    repeated. *)
Theorem breakQuartoMd_reassembles (src language : string) :
  Reassembles (gapLine language) (lines src)
    (map cellLines (breakQuartoMd src language)).
Proof. apply segment_reassembles, lines_noLF. Qed.

(** C1 as stated fails: the two fences of a code cell are in no cell and
    are not blank. *)
Lemma breakQuartoMd_drops_fences :
  let src := unlines ["```{python}"; "x"; "```"] in
  breakQuartoMd src "python" = [mkCell (Code "python") ["x"]]
  /\ ~ Reassembles blankLine (lines src)
         (map cellLines (breakQuartoMd src "python")).
Proof.
  intros src. split; [reflexivity|].
  change (lines src) with ["```{python}"; "x"; "```"].
  change (map cellLines (breakQuartoMd src "python")) with [["x"]].
  intros H.
  inversion H as [|g chunk rest chunks Hg Hrest E]; subst.
  destruct g as [|l g]; simpl in E.
  - discriminate E.
  - injection E as El _. subst l. simpl in Hg. discriminate Hg.
Qed.







(** C6, as amended.  The cells are emitted in document order: none is
    empty, and they lie on runs of document lines that follow one
    another without overlap.  A cell holds its type and its source lines
    and no line number. *)
Theorem breakQuartoMd_document_order (src language : string) :
  Forall (fun c => source c <> []) (breakQuartoMd src language)
  /\ exists starts,
       Occupies (lines src) 0 starts
         (map cellLines (breakQuartoMd src language)).
Proof.
  split; [apply breakQuartoMd_nonempty|].
  destruct (Reassembles_occupies _ _ _
              (segment_reassembles language _ (lines_noLF src)) [])
    as [starts H].
  exists starts. exact H.
Qed.

(** C6 as stated fails: two documents give the same cell although its
    first line is line 0 of one and line 1 of the other, so no reading
    of a cell yields its first line number. *)
Lemma start_line_not_recorded :
  breakQuartoMd "a" "python" = [mkCell Markdown ["a"]]
  /\ breakQuartoMd (unlines [""; "a"]) "python" = [mkCell Markdown ["a"]]
  /\ ~ exists startLine, RecordsStartLine startLine.
Proof.
  split; [reflexivity|]. split; [reflexivity|].
  intros [f H].
  pose proof (H "a" "python") as H1.
  pose proof (H (unlines [""; "a"]) "python") as H2.
  change (breakQuartoMd "a" "python") with [mkCell Markdown ["a"]] in H1.
  change (breakQuartoMd (unlines [""; "a"]) "python")
    with [mkCell Markdown ["a"]] in H2.
  inversion H1 as [|c1 l1 E1 _]; inversion H2 as [|c2 l2 E2 _]; subst.
  change (lines "a") with ["a"] in E1.
  change (lines (unlines [""; "a"])) with [""; "a"] in E2.
  change (cellLines (mkCell Markdown ["a"])) with ["a"] in E1, E2.
  destruct (f (mkCell Markdown ["a"])) as [|[|n]]; simpl in E1, E2.
  - discriminate E2.
  - discriminate E1.
  - destruct n; discriminate E1.
Qed.

(* ================================================================== *)
(** * Properties of the schema navigator *)
(* ================================================================== *)

Section Navigator.

Lemma navigateSchema_union alts seg rest :
  navigateSchema (SUnion alts) (seg :: rest)
  = flat_map (fun alt => navigateSchema alt (seg :: rest)) alts.
Proof.
  reflexivity.
Qed.

Lemma navigateSchema_nil schema : navigateSchema schema [] = [schema].
Proof. destruct schema; reflexivity. Qed.

Lemma navigateSchema_one_segment alt seg :
  isUnion alt = false ->
  length (navigateSchema alt [seg]) = if accepts alt seg then 1 else 0.
Proof.
  destruct alt as [props pats | items | ty en | alts]; intros H;
    try discriminate; destruct seg as [k | i]; simpl;
    rewrite ?navigateSchema_nil; auto.
  clear H. induction props as [|[name sub] props IH]; simpl.
  - induction pats as [|[pattern sub] pats IHp]; simpl; auto.
    destruct (pattern k); simpl; auto.
    now rewrite navigateSchema_nil.
  - destruct (k =? name)%string; simpl; auto.
    now rewrite navigateSchema_nil.
Qed.

End Navigator.

(** C4, as amended.  For a union at the root and a path of one segment,
    [navigateSchema] returns the results of the alternatives one after
    the other, so an alternative in which the path is invalid adds
    nothing and removes nothing; when no alternative is itself a union
    and the path is valid in exactly [j] of the [k] alternatives, the
    result has exactly [j] sub-schemas, and [j <= k].  With the empty
    path the result is the schema itself, alone. *)
Theorem navigateSchema_union_branches (alts : list Schema) (seg : Segment) :
  navigateSchema (SUnion alts) [seg]
  = flat_map (fun alt => navigateSchema alt [seg]) alts
  /\ (forallb (fun alt => negb (isUnion alt)) alts = true ->
      length (navigateSchema (SUnion alts) [seg])
      = validAlternatives alts seg)
  /\ validAlternatives alts seg <= length alts
  /\ (forall schema, navigateSchema schema [] = [schema]).
Proof.
  split; [apply navigateSchema_union|]. split; [|split].
  - rewrite navigateSchema_union. unfold validAlternatives.
    induction alts as [|alt alts IH]; simpl; auto.
    intros H. apply andb_true_iff in H as [Hu H].
    apply negb_true_iff in Hu.
    rewrite length_app, (navigateSchema_one_segment _ _ Hu), (IH H).
    destruct (accepts alt seg); reflexivity.
  - unfold validAlternatives. apply filter_length_le.
  - apply navigateSchema_nil.
Qed.

Lemma navigateSchema_union_branches_witness :
  let echo := SObject [("echo", SScalar "boolean" [])] [] in
  let items := SArray (SScalar "string" []) in
  length (navigateSchema (SUnion [echo; items; SScalar "null" []; echo])
            [Key "echo"]) = 2.
Proof.
  intros echo items.
  exact (proj1 (proj2 (navigateSchema_union_branches
                         [echo; items; SScalar "null" []; echo]
                         (Key "echo"))) eq_refl).
Defined.

(** C4 as stated fails: one alternative, itself a union, in which the
    path is valid, yields two sub-schemas. *)
Lemma navigateSchema_nested_union :
  let inner := SUnion [SObject [("a", SScalar "string" [])] [];
                       SObject [("a", SScalar "number" [])] []] in
  length [inner] = 1
  /\ validAlternatives [inner] (Key "a") = 1
  /\ navigateSchema (SUnion [inner]) [Key "a"]
     = [SScalar "string" []; SScalar "number" []].
Proof. repeat split; reflexivity. Qed.

(* ================================================================== *)
(** * Sorting with a comparator *)
(* ================================================================== *)

Section SortFacts.

Context {A : Type}.
Variable cmp : A -> A -> Z.

Let le (a b : A) : Prop := (cmp a b <= 0)%Z.

Hypothesis cmp_total : forall a b, le a b \/ le b a.
Hypothesis cmp_trans : forall a b c, le a b -> le b c -> le a c.

Lemma Forall_insertBy (P : A -> Prop) x l :
  P x -> Forall P l -> Forall P (insertBy cmp x l).
Proof.
  intros Hx. induction 1 as [|y l Hy Hl IH]; simpl.
  - now constructor.
  - destruct (cmp x y <=? 0)%Z; repeat constructor; auto.
Qed.

Lemma insertBy_sorted x l :
  StronglySorted le l -> StronglySorted le (insertBy cmp x l).
Proof.
  induction 1 as [|y l Hs IH Hall]; simpl.
  - repeat constructor.
  - destruct (Z.leb_spec (cmp x y) 0) as [Hxy | Hxy].
    + constructor; [now constructor|].
      constructor; [exact Hxy|].
      eapply Forall_impl; [|exact Hall].
      intros z Hz. now apply (cmp_trans x y z).
    + constructor; [exact IH|].
      apply Forall_insertBy; [|exact Hall].
      destruct (cmp_total x y) as [H | H]; [unfold le in H; lia | exact H].
Qed.

Lemma sortBy_sorted l : StronglySorted le (sortBy cmp l).
Proof.
  induction l as [|x l IH]; simpl; [constructor|].
  now apply insertBy_sorted.
Qed.

Lemma StronglySorted_filter (p : A -> bool) l :
  StronglySorted le l -> StronglySorted le (filter p l).
Proof.
  induction 1 as [|x l Hs IH Hall]; simpl; [constructor|].
  destruct (p x); [|exact IH].
  constructor; [exact IH|].
  apply Forall_forall. intros y Hy. apply filter_In in Hy as [Hy _].
  rewrite Forall_forall in Hall. now apply Hall.
Qed.

End SortFacts.

Section SortPermutation.

Context {A : Type}.
Variable cmp : A -> A -> Z.

Lemma insertBy_perm x l : Permutation (insertBy cmp x l) (x :: l).
Proof.
  induction l as [|y l IH]; simpl; [reflexivity|].
  destruct (cmp x y <=? 0)%Z; [reflexivity|].
  rewrite IH. apply perm_swap.
Qed.

Lemma sortBy_perm l : Permutation (sortBy cmp l) l.
Proof.
  induction l as [|x l IH]; simpl; [reflexivity|].
  rewrite insertBy_perm. now constructor.
Qed.

Lemma filter_perm (p : A -> bool) l l' :
  Permutation l l' -> Permutation (filter p l) (filter p l').
Proof.
  induction 1 as [| x l l' _ IH | x y l | l l' l'' _ IH1 _ IH2]; simpl.
  - reflexivity.
  - destruct (p x); [now constructor | exact IH].
  - destruct (p x), (p y); try reflexivity. apply perm_swap.
  - now transitivity (filter p l').
Qed.

End SortPermutation.

(* ================================================================== *)
(** * The comparison of the examples is an order *)
(* ================================================================== *)

Section CodeUnitOrder.

Lemma nat_of_ascii_inj x y : nat_of_ascii x = nat_of_ascii y -> x = y.
Proof.
  intros H. rewrite <- (ascii_nat_embedding x), <- (ascii_nat_embedding y).
  now rewrite H.
Qed.

Lemma codeUnitCompare_total a : forall b,
  (codeUnitCompare a b <= 0)%Z \/ (codeUnitCompare b a <= 0)%Z.
Proof.
  induction a as [|x a IH]; intros [|y b]; simpl; try lia.
  rewrite (Ascii.eqb_sym y x).
  destruct (Ascii.eqb x y); [apply IH | lia].
Qed.

Lemma codeUnitCompare_trans a : forall b c,
  (codeUnitCompare a b <= 0)%Z -> (codeUnitCompare b c <= 0)%Z ->
  (codeUnitCompare a c <= 0)%Z.
Proof.
  induction a as [|x a IH]; intros [|y b] [|z c]; simpl; try lia.
  destruct (Ascii.eqb_spec x y) as [-> | Hxy].
  - destruct (Ascii.eqb_spec y z) as [-> | Hyz]; [apply IH | auto].
  - destruct (Ascii.eqb_spec y z) as [-> | Hyz].
    + destruct (Ascii.eqb_spec x z); [contradiction | auto].
    + intros H1 H2.
      assert (nat_of_ascii x <> nat_of_ascii y)
        by (intros E; now apply nat_of_ascii_inj in E).
      assert (nat_of_ascii y <> nat_of_ascii z)
        by (intros E; now apply nat_of_ascii_inj in E).
      destruct (Ascii.eqb_spec x z) as [-> | Hxz]; lia.
Qed.

Lemma codeUnitCompare_orders : ordersStrings codeUnitCompare.
Proof.
  split.
  - intros a b. apply codeUnitCompare_total.
  - intros a b c. apply codeUnitCompare_trans.
Qed.

End CodeUnitOrder.

(* ================================================================== *)
(** * Properties of the recovery parser and its callers *)
(* ================================================================== *)

Section AutomationFacts.

Context {Tree Annotated : Type}.
Variable env : Collaborators Tree Annotated.

Lemma attemptAt_deletions context d a :
  In a (attemptAt env context d) -> deletions a = d.
Proof.
  unfold attemptAt. destruct (parser env _); simpl; [|tauto].
  intros [<- | []]. reflexivity.
Qed.

Lemma attemptAt_length context d :
  length (attemptAt env context d) <= 1.
Proof. unfold attemptAt. destruct (parser env _); simpl; lia. Qed.

Lemma attempts_length context ds :
  length (flat_map (attemptAt env context) ds) <= length ds.
Proof.
  induction ds as [|d ds IH]; simpl; [lia|].
  rewrite length_app. pose proof (attemptAt_length context d). lia.
Qed.

Lemma attempts_deletions_in context ds a :
  In a (flat_map (attemptAt env context) ds) -> In (deletions a) ds.
Proof.
  intros H. apply in_flat_map in H as (d & Hd & Ha).
  now rewrite (attemptAt_deletions _ _ _ Ha).
Qed.

Lemma attempts_increasing context ds :
  StronglySorted lt ds ->
  StronglySorted lt (map deletions (flat_map (attemptAt env context) ds)).
Proof.
  induction 1 as [|d ds Hs IH Hall]; simpl; [constructor|].
  rewrite map_app. unfold attemptAt at 1.
  destruct (parser env _); simpl; [|exact IH].
  constructor; [exact IH|].
  apply Forall_forall. intros n Hn.
  apply in_map_iff in Hn as (a & <- & Ha).
  apply attempts_deletions_in in Ha.
  rewrite Forall_forall in Hall. now apply Hall.
Qed.

Lemma seq_increasing len : forall start,
  StronglySorted lt (seq start len).
Proof.
  induction len as [|len IH]; intros start; simpl; constructor; auto.
  apply Forall_forall. intros n Hn. apply in_seq in Hn. lia.
Qed.

Lemma validationLoop_none context attempts :
  (forall a, In a attempts -> answersValidation env a = false) ->
  validationLoop env context attempts = [].
Proof.
  induction attempts as [|a attempts IH]; intros H; simpl; auto.
  pose proof (H a (or_introl eq_refl)) as Ha.
  unfold answersValidation in Ha.
  destruct (buildAnnotated env _ _); [discriminate|].
  apply IH. intros b Hb. apply H. now right.
Qed.

Lemma completionsLoop_none context word indent attempts :
  (forall a, In a attempts -> answersCompletion env context a = false) ->
  completionsLoop env context word indent attempts = None.
Proof.
  induction attempts as [|a attempts IH]; intros H; simpl; auto.
  pose proof (H a (or_introl eq_refl)) as Ha.
  unfold answersCompletion in Ha.
  apply orb_false_iff in Ha as [Hb Ha]. rewrite Hb.
  destruct (buildAnnotated env _ _); [discriminate|].
  apply IH. intros b Hb'. apply H. now right.
Qed.

(** ** The result of [completions] *)

Lemma indentCompletion_value prefix indent c :
  isValue (indentCompletion env prefix indent c) = isValue c
  /\ (isValue c = true -> indentCompletion env prefix indent c = c).
Proof.
  unfold indentCompletion.
  destruct (isValue c) eqn:V.
  - rewrite orb_true_r. simpl. now rewrite V.
  - rewrite orb_false_r.
    destruct (negb (suggest_on_accept c) || _); [now rewrite V|].
    destruct (schemaType env (propertyOf _ _) =? "object")%string;
      [exact (conj V (fun H => False_ind _ (Bool.diff_false_true H)))|].
    destruct (schemaType env (propertyOf _ _) =? "array")%string;
      [exact (conj V (fun H => False_ind _ (Bool.diff_false_true H)))|].
    now rewrite V.
Qed.

Lemma values_of_indented prefix indent word l :
  filter isValue
    (filter (fun c => startsWith (value c) word)
       (map (indentCompletion env prefix indent) l))
  = filter (fun c => isValue c && startsWith (value c) word) l.
Proof.
  induction l as [|c l IH]; simpl; auto.
  destruct (indentCompletion_value prefix indent c) as [Hv Hid].
  destruct (isValue c) eqn:V.
  - rewrite (Hid eq_refl). simpl.
    destruct (startsWith (value c) word); simpl; [rewrite V|];
      now rewrite IH.
  - simpl.
    destruct (startsWith _ word); simpl; [rewrite Hv|]; exact IH.
Qed.

Lemma filter_flat_map {X Y} (p : Y -> bool) (f : X -> list Y) l :
  filter p (flat_map f l) = flat_map (fun x => filter p (f x)) l.
Proof.
  induction l as [|x l IH]; simpl; auto.
  now rewrite filter_app, IH.
Qed.

(** The value completions among the result of [completions] are the
    value completions the reachable schemas offer for the word. *)
Lemma completions_values schema path word indent prefix :
  Permutation
    (filter isValue
       (completions_of (completions env schema path word indent prefix)))
    (filter (fun c => isValue c && startsWith (value c) word)
       (flat_map (schemaCompletions env) (navigateSchema schema path))).
Proof.
  unfold completions. simpl.
  rewrite (filter_perm isValue _ _ (sortBy_perm _ _)).
  rewrite !filter_flat_map.
  induction (navigateSchema schema path) as [|s l IH]; simpl; [reflexivity|].
  rewrite values_of_indented.
  apply Permutation_app; [reflexivity | exact IH].
Qed.

Lemma startsWith_char c s a :
  startsWith (String c s) (String a EmptyString) = Ascii.eqb a c.
Proof. destruct s; simpl; apply andb_true_r. Qed.

Lemma includes_colon_not_blank s :
  includes s ":" = true -> blankLine s = false.
Proof.
  unfold blankLine. rewrite nonEmptyLine_spec, negb_involutive.
  induction s as [|c s IH]; [discriminate|].
  change (includes (String c s) ":")
    with (startsWith (String c s) ":" || includes s ":").
  rewrite startsWith_char.
  change (allWhiteSpace (String c s))
    with (isWhiteSpace c && allWhiteSpace s).
  destruct (Ascii.eqb_spec ":" c) as [<- | Hc]; [reflexivity|].
  intros H. rewrite (IH H). apply andb_false_r.
Qed.

End AutomationFacts.




Section CompletionResults.

Context {Tree Annotated : Type}.
Variable env : Collaborators Tree Annotated.
Hypothesis orders : ordersStrings (localeCompare env).

Lemma completions_sorted schema path word indent prefix :
  StronglySorted (valueLe env)
    (completions_of (completions env schema path word indent prefix)).
Proof.
  destruct orders as [Htotal Htrans].
  unfold completions. simpl.
  apply (sortBy_sorted (compareCompletions env)).
  - intros a b. apply Htotal.
  - intros a b c. apply Htrans.
Qed.

Lemma filtered_sorted (p : Completion -> bool) r :
  StronglySorted (valueLe env) (completions_of r) ->
  StronglySorted (valueLe env) (filter p (completions_of r)).
Proof. apply (StronglySorted_filter (compareCompletions env)). Qed.

Lemma completionsLoop_result context word indent attempts result :
  completionsLoop env context word indent attempts = Some result ->
  StronglySorted (valueLe env) (completions_of result)
  /\ cacheable result = true /\ token result = word.
Proof.
  induction attempts as [|a attempts IH]; simpl; [discriminate|].
  destruct (blankLine _).
  { intros H. injection H as <-.
    unfold completeEmptyLineOnIndentation, keysOnly, withCompletions.
    cbn [completions_of cacheable token].
    split; [|split; reflexivity].
    apply filtered_sorted, completions_sorted. }
  destruct (buildAnnotated env _ _); [|exact IH].
  intros H. injection H as <-.
  unfold keysOnly, valuesOnly, withCompletions.
  destruct (includes (line context) ":");
    [|destruct (negb (includes (line context) "-"))];
    cbn [completions_of cacheable token];
    (split; [|split; reflexivity]);
    try apply filtered_sorted; apply completions_sorted.
Qed.

End CompletionResults.

Section Origins.

Context {Tree Annotated : Type}.
Variable env : Collaborators Tree Annotated.

Lemma yaml_result_origin context result :
  automationFromGoodParseYAML env KCompletions context
  = CompletionsOf result ->
  completionsFromGoodParseYAML env (trimTicks context) = Some result.
Proof.
  unfold automationFromGoodParseYAML.
  destruct (positionInTicks context); [discriminate|].
  destruct (completionsFromGoodParseYAML env (trimTicks context));
    simpl; [|discriminate].
  now intros [= ->].
Qed.

Lemma script_result_origin context result :
  automationFromGoodParseScript env KCompletions context
  = CompletionsOf result ->
  exists context', completionsFromGoodParseYAML env context' = Some result.
Proof.
  unfold automationFromGoodParseScript.
  destruct (scriptHeader _ _) as [[start language]|]; [|discriminate].
  destruct (nth_error _ start); [|discriminate].
  destruct (nth_error _ _); [|discriminate].
  destruct (partitionCellOptionsMapped env _ _); [|discriminate].
  destruct (positionInTicks _); [discriminate|].
  match goal with
  | |- ofCompletions (completionsFromGoodParseYAML env ?c) = _ -> _ =>
      destruct (completionsFromGoodParseYAML env c) eqn:E;
        simpl; [|discriminate];
        intros [= ->]; now exists c
  end.
Qed.

Lemma markdown_result_origin context result :
  automationFromGoodParseMarkdown env KCompletions context
  = CompletionsOf result ->
  exists context', completionsFromGoodParseYAML env context' = Some result.
Proof.
  unfold automationFromGoodParseMarkdown.
  destruct (find _ _) as [cell|]; [|discriminate].
  destruct (mcell_type cell) as [| | |[|c l]]; try discriminate.
  - destruct (positionInTicks _); [discriminate|].
    intros H. apply yaml_result_origin in H. eauto.
  - apply script_result_origin.
Qed.

Lemma yieldsResult_origin result :
  yieldsResult env result ->
  exists context, completionsFromGoodParseYAML env context = Some result.
Proof.
  intros [H | [[c H] | [[c H] | [c H]]]].
  - exact H.
  - apply yaml_result_origin in H. eauto.
  - now apply script_result_origin in H.
  - now apply markdown_result_origin in H.
Qed.

End Origins.



Section ColonCompletions.

Context {Tree Annotated : Type}.
Variable env : Collaborators Tree Annotated.

Lemma completionsLoop_colon context word indent attempts result :
  includes (line context) ":" = true ->
  completionsLoop env context word indent attempts = Some result ->
  exists a, In a attempts /\
    if blankLine (dropLast (line context) (deletions a))
    then result = completeEmptyLineOnIndentation env context word indent
                    (deletions a) (attemptCode a)
    else exists doc,
        buildAnnotated env (parse a) (attemptCode a) = Some doc
        /\ result = valuesOnly
                      (completions env (schema context)
                         (cursorPath env context word a doc) word indent
                         (prefixOf context)).
Proof.
  intros Hcolon.
  induction attempts as [|a attempts IH]; simpl; [discriminate|].
  destruct (blankLine (dropLast (line context) (deletions a))) eqn:Hb.
  { intros H. injection H as <-. exists a.
    split; [now left | now rewrite Hb]. }
  destruct (buildAnnotated env (parse a) (attemptCode a)) as [doc|] eqn:Hd.
  - rewrite Hcolon. intros H. injection H as <-. exists a.
    split; [now left|]. rewrite Hb. now exists doc.
  - intros H. destruct (IH H) as (b & Hin & Hres).
    exists b. split; [now right | exact Hres].
Qed.

Lemma filter_all {X} (p : X -> bool) (l : list X) :
  Forall (fun x => p x = true) (filter p l).
Proof.
  apply Forall_forall. intros x Hx. now apply filter_In in Hx as [_ Hx].
Qed.

End ColonCompletions.

(** C8, as amended.  For a completion request whose line holds a colon,
    the answer comes from one parse attempt.  When the text that attempt
    leaves on the line is not pure white space, the completions returned
    are exactly the value completions that the schemas reachable at the
    cursor path offer and whose value starts with the word being typed,
    and the token is that word; when it is pure white space the
    completions returned are keys.  For the line [#| echo: tru] of a
    code cell whose [echo] option is a boolean, the values [true] and
    [false] are filtered to the one that starts with [tru]. *)
Theorem value_completions_at_colon :
  (forall (Tree Annotated : Type) (env : Collaborators Tree Annotated)
          (context : Context) (result : CompletionResult),
      includes (line context) ":" = true ->
      completionsFromGoodParseYAML env context = Some result ->
      let word := wordOf (line context) in
      token result = word
      /\ exists a, In a (attemptParsesAtLine env context) /\
           if blankLine (dropLast (line context) (deletions a))
           then Forall (fun c => isKey c = true) (completions_of result)
           else exists doc,
               buildAnnotated env (parse a) (attemptCode a) = Some doc
               /\ Permutation (completions_of result)
                    (filter (fun c => isValue c
                                      && startsWith (value c) word)
                       (flat_map (schemaCompletions env)
                          (navigateSchema (schema context)
                             (cursorPath env context word a doc)))))
  /\ (let env := exampleCollaborators (fun _ => true)
                   [Key "echo"; Key "tru"] (Some "echo: tru") [] in
      automationFromGoodParseScript env KCompletions
        (mkScriptContext (Some "python")
           ("#| echo: tru" ++ nl ++ "1+1")%string
           (mkPosition 0 12) "#| echo: tru")
      = CompletionsOf
          (mkResult "tru"
             [mkCompletion ValueCompletion "true" false
                (SScalar "boolean" [])]
             true)).
Proof.
  split; [|reflexivity].
  intros Tree Annotated env context result Hcolon Hres word.
  unfold completionsFromGoodParseYAML in Hres.
  rewrite (includes_colon_not_blank _ Hcolon) in Hres.
  fold word in Hres.
  destruct (completionsLoop_colon env _ _ _ _ _ Hcolon Hres)
    as (a & Hin & Ha).
  destruct (blankLine (dropLast (line context) (deletions a))) eqn:Hb.
  - subst result. split; [reflexivity|]. exists a. split; [exact Hin|].
    rewrite Hb. apply filter_all.
  - destruct Ha as (doc & Hdoc & ->). split; [reflexivity|].
    exists a. split; [exact Hin|]. rewrite Hb. exists doc.
    split; [exact Hdoc|]. apply completions_values.
Qed.

Lemma value_completions_at_colon_witness :
  let env := exampleCollaborators (fun _ => true)
               [Key "echo"; Key "tru"] None [] in
  let context := mkContext "echo: tru" (mkPosition 0 9)
                   (languageSchema env "python") "echo: tru" None in
  completionsFromGoodParseYAML env context
  = Some (mkResult "tru"
            [mkCompletion ValueCompletion "true" false
               (SScalar "boolean" [])] true)
  /\ token (mkResult "tru"
              [mkCompletion ValueCompletion "true" false
                 (SScalar "boolean" [])] true) = "tru".
Proof.
  intros env context. split; [reflexivity|].
  exact (proj1 (proj1 value_completions_at_colon unit unit env context _
                  eq_refl eq_refl)).
Defined.

(** C8 as stated fails: the line holds a colon, only the empty text
    parses, and the completion returned is a key. *)
Lemma key_completion_at_colon :
  let env := exampleCollaborators (fun s => (s =? "")%string) [] None [] in
  let context := mkContext ":" (mkPosition 0 1) (frontMatterSchema env)
                           ":" None in
  includes (line context) ":" = true
  /\ completionsFromGoodParseYAML env context
     = Some (mkResult ""
               [mkCompletion KeyCompletion "title: " true
                  (frontMatterSchema env)]
               true)
  /\ filter (fun c => isValue c && startsWith (value c) "")
       (flat_map (schemaCompletions env)
          (navigateSchema (frontMatterSchema env) [])) = [].
Proof. repeat split; reflexivity. Qed.

Section Delimiters.

Context {Tree Annotated : Type}.
Variable env : Collaborators Tree Annotated.

Lemma positionInTicks_onDelimiterLine context :
  onDelimiterLine (code context) (row (position context)) ->
  positionInTicks context = true.
Proof.
  unfold onDelimiterLine, positionInTicks.
  intros [[H1 H2] | [H1 H2]]; rewrite H1, H2, Z.eqb_refl; simpl.
  - reflexivity.
  - apply orb_true_r.
Qed.

End Delimiters.



(* ================================================================== *)
(** * Properties of document validation *)
(* ================================================================== *)

Section ValidateDocumentFacts.

Context {Annotated : Type}.
Variable env : DocumentCollaborators Annotated.

Lemma validateCells_step cell rest result :
  validateCells env (cell :: rest) result =
  match cellOutcome env cell with
  | Returned _ => validateCells env rest result
  | Raised (ThrownValidationError errors) =>
      validateCells env rest (result ++ errors)
  | Raised e => Raised e
  end.
Proof.
  unfold cellOutcome. simpl.
  destruct (mcell_type cell); try reflexivity.
  destruct (languageOptionsSchema env language); reflexivity.
Qed.

Lemma validateCells_collects cells : forall result,
  onlyValidationErrors env cells ->
  validateCells env cells result
  = Returned (result ++ flat_map (caughtErrors env) cells).
Proof.
  induction cells as [|cell cells IH]; intros result H.
  - simpl. now rewrite app_nil_r.
  - inversion H as [|c l Hcell Hrest]; subst.
    rewrite validateCells_step.
    change (flat_map (caughtErrors env) (cell :: cells))
      with (caughtErrors env cell ++ flat_map (caughtErrors env) cells).
    unfold caughtErrors at 1.
    destruct (cellOutcome env cell) as [u | [m | errors]].
    + now rewrite IH.
    + now destruct (Hcell m).
    + rewrite IH by assumption. now rewrite app_assoc.
Qed.

Lemma validateCells_rethrows before : forall cell after m result,
  onlyValidationErrors env before ->
  cellOutcome env cell = Raised (ThrownError m) ->
  validateCells env (before ++ cell :: after) result
  = Raised (ThrownError m).
Proof.
  induction before as [|b before IH]; intros cell after m result H Hcell.
  - simpl app. now rewrite validateCells_step, Hcell.
  - inversion H as [|c l Hb Hrest]; subst.
    change ((b :: before) ++ cell :: after)
      with (b :: (before ++ cell :: after)).
    rewrite validateCells_step.
    destruct (cellOutcome env b) as [u | [m' | errors]].
    + now apply IH.
    + now destruct (Hb m').
    + now apply IH.
Qed.

End ValidateDocumentFacts.

(** C7, as amended.  [validateDocumentFromSource] throws when the first
    cell begins with three dashes and does not end with them.  A
    [ValidationError] raised by the option validation of a cell is
    caught and its errors are appended to the result, so that a document
    without front matter whose cells raise nothing else returns the
    errors collected; an error of another kind raised there is thrown to
    the caller. *)
Theorem validateDocumentFromSource_errors {Annotated : Type}
    (env : DocumentCollaborators Annotated) :
  (forall src,
      unclosedFrontMatter env src = true ->
      validateDocumentFromSource env src = Raised (ThrownError expectedEnd))
  /\ (forall cells result,
         onlyValidationErrors env cells ->
         validateCells env cells result
         = Returned (result ++ flat_map (caughtErrors env) cells))
  /\ (forall src firstCell rest,
         docCells env src = firstCell :: rest ->
         startsWith (msource firstCell) "---" = false ->
         onlyValidationErrors env (firstCell :: rest) ->
         validateDocumentFromSource env src
         = Returned (flat_map (caughtErrors env) (firstCell :: rest)))
  /\ (forall before cell after m result,
         onlyValidationErrors env before ->
         cellOutcome env cell = Raised (ThrownError m) ->
         validateCells env (before ++ cell :: after) result
         = Raised (ThrownError m)).
Proof.
  repeat split.
  - intros src. unfold unclosedFrontMatter, validateDocumentFromSource.
    destruct (docCells env src) as [|firstCell rest]; [discriminate|].
    intros H. apply andb_true_iff in H as [Hs He].
    rewrite Hs. unfold validateFrontMatter. now rewrite He.
  - intros cells result. apply validateCells_collects.
  - intros src firstCell rest Hcells Hs H.
    unfold validateDocumentFromSource. rewrite Hcells, Hs.
    now rewrite validateCells_collects.
  - intros before cell after m result. apply validateCells_rethrows.
Qed.

Lemma validateDocumentFromSource_errors_witness :
  let mismatch := mkError 1 9 1 12 "echo must be a boolean" in
  let env := exampleDocument
               [mkMappedCell MdMarkdown "Hello" 0;
                mkMappedCell (MdCode "python") "#| echo: tru" 2]
               (fun _ _ => Raised (ThrownValidationError [mismatch])) in
  let unclosed := exampleDocument
                    [mkMappedCell MdMarkdown "--- title: x" 0]
                    (fun _ _ => Returned tt) in
  validateDocumentFromSource env "x" = Returned [mismatch]
  /\ validateDocumentFromSource unclosed "x"
     = Raised (ThrownError expectedEnd).
Proof.
  intros mismatch env unclosed. split.
  - destruct (validateDocumentFromSource_errors env) as (_ & _ & H & _).
    apply (H "x" (mkMappedCell MdMarkdown "Hello" 0)
             [mkMappedCell (MdCode "python") "#| echo: tru" 2]);
      try reflexivity.
    repeat constructor; intros m; discriminate.
  - exact (proj1 (validateDocumentFromSource_errors unclosed) "x" eq_refl).
Defined.

(** C7 as stated fails: the document has no front matter, and the error
    raised by the option validation of its code cell, which is not a
    [ValidationError], reaches the caller. *)
Lemma other_errors_are_rethrown :
  let env := exampleDocument
               [mkMappedCell (MdCode "python") "#| echo: tru" 0]
               (fun _ _ => Raised (ThrownError "bad YAML")) in
  unclosedFrontMatter env "x" = false
  /\ validateDocumentFromSource env "x" = Raised (ThrownError "bad YAML")
  /\ throws (validateDocumentFromSource env "x") = true.
Proof. repeat split; reflexivity. Qed.

(* ================================================================== *)
(** * Further properties of the segmenter *)
(* ================================================================== *)

Section TrimFacts.

Lemma findIndex_dropBlank (l : list string) :
  (findIndex nonEmptyLine l = (-1)%Z /\ dropBlank l = [])
  \/ ((0 <= findIndex nonEmptyLine l)%Z
      /\ sliceFrom l (findIndex nonEmptyLine l) = dropBlank l
      /\ exists x r, dropBlank l = x :: r /\ nonEmptyLine x = true).
Proof.
  induction l as [|x l IH]; simpl; [left; auto|].
  unfold blankLine. destruct (nonEmptyLine x) eqn:Nx; simpl.
  - right. split; [lia|]. split; [reflexivity|]. now exists x, l.
  - destruct IH as [[E H] | (E & H & Hx)].
    + left. now rewrite E.
    + right. destruct (Z.eqb_spec (findIndex nonEmptyLine l) (-1)); [lia|].
      split; [lia|]. split; [|exact Hx].
      unfold sliceFrom in *.
      replace (Z.to_nat (findIndex nonEmptyLine l + 1))
        with (S (Z.to_nat (findIndex nonEmptyLine l))) by lia.
      exact H.
Qed.

Lemma lastNonEmptyIndex_dropBlankEnd (l : list string) :
  (lastNonEmptyIndex l = (-1)%Z /\ dropBlankEnd l = [])
  \/ ((0 <= lastNonEmptyIndex l)%Z
      /\ sliceTo l (lastNonEmptyIndex l + 1) = dropBlankEnd l
      /\ dropBlankEnd l <> []).
Proof.
  induction l as [|x l IH]; simpl; [left; auto|].
  destruct IH as [[E H] | (E & H & Hne)].
  - rewrite E, H. simpl. unfold blankLine.
    destruct (nonEmptyLine x); simpl.
    + right. split; [lia|]. split; [reflexivity | discriminate].
    + left. auto.
  - destruct (Z.gtb_spec (lastNonEmptyIndex l) (-1)); [|lia].
    right. split; [lia|]. unfold sliceTo in *.
    replace (Z.to_nat (lastNonEmptyIndex l + 1 + 1))
      with (S (Z.to_nat (lastNonEmptyIndex l + 1))) by lia.
    simpl. rewrite H.
    destruct (dropBlankEnd l); [contradiction|].
    split; [reflexivity | discriminate].
Qed.

Lemma dropBlankEnd_head x r :
  nonEmptyLine x = true ->
  exists r', dropBlankEnd (x :: r) = x :: r'.
Proof.
  intros Hx. simpl. unfold blankLine. rewrite Hx. simpl.
  destruct (dropBlankEnd r); eauto.
Qed.

Lemma mdTrimEmptyLines_eq (l : list string) :
  mdTrimEmptyLines l = dropBlankEnd (dropBlank l).
Proof.
  unfold mdTrimEmptyLines.
  destruct (findIndex_dropBlank l) as [[E H] | (E & H & x & r & Hd & Hx)].
  - now rewrite E, H.
  - destruct (Z.eqb_spec (findIndex nonEmptyLine l) (-1)); [lia|].
    rewrite H.
    destruct (lastNonEmptyIndex_dropBlankEnd (dropBlank l))
      as [[E1 H1] | (E1 & H1 & _)].
    + rewrite E1. simpl. rewrite Hd in H1.
      destruct (dropBlankEnd_head x r Hx) as [r' Hr']. congruence.
    + destruct (Z.gtb_spec (lastNonEmptyIndex (dropBlank l)) (-1)); [|lia].
      exact H1.
Qed.

Lemma dropBlank_nil (l : list string) :
  dropBlank l = [] <-> forallb blankLine l = true.
Proof.
  induction l as [|x l IH]; simpl; [tauto|].
  destruct (blankLine x); simpl; [exact IH|].
  split; discriminate.
Qed.

Lemma dropBlankEnd_nil (l : list string) :
  dropBlankEnd l = [] <-> forallb blankLine l = true.
Proof.
  induction l as [|x l IH]; simpl; [tauto|].
  destruct (dropBlankEnd l) eqn:E.
  - destruct (blankLine x); simpl.
    + split; auto. intros _. now apply IH.
    + split; discriminate.
  - split; [discriminate|]. intros H.
    apply andb_true_iff in H as [_ H]. apply IH in H. discriminate.
Qed.

Lemma dropBlank_head (l : list string) x r :
  dropBlank l = x :: r -> nonEmptyLine x = true.
Proof.
  induction l as [|y l IH]; simpl; [discriminate|].
  unfold blankLine. destruct (nonEmptyLine y) eqn:Ny; simpl; [|exact IH].
  now intros [= <- _].
Qed.

Lemma dropBlankEnd_last (l : list string) :
  dropBlankEnd l <> [] ->
  nonEmptyLine (last (dropBlankEnd l) EmptyString) = true.
Proof.
  induction l as [|x l IH]; simpl; [congruence|].
  destruct (dropBlankEnd l) as [|y r'] eqn:E.
  - unfold blankLine. destruct (nonEmptyLine x) eqn:Nx; simpl; congruence.
  - intros _. change (last (x :: y :: r') EmptyString)
      with (last (y :: r') EmptyString).
    apply IH. discriminate.
Qed.

Lemma dropBlankEnd_id (l : list string) :
  nonEmptyLine (last l EmptyString) = true -> dropBlankEnd l = l.
Proof.
  induction l as [|x l IH]; [reflexivity|].
  destruct l as [|y l].
  - simpl. unfold blankLine. now intros ->.
  - intros H. change (last (x :: y :: l) EmptyString)
      with (last (y :: l) EmptyString) in H.
    specialize (IH H).
    change (dropBlankEnd (x :: y :: l))
      with (match dropBlankEnd (y :: l) with
            | [] => if blankLine x then [] else [x]
            | r' => x :: r'
            end).
    now rewrite IH.
Qed.

Lemma dropBlankEnd_idem (l : list string) :
  dropBlankEnd (dropBlankEnd l) = dropBlankEnd l.
Proof.
  destruct (dropBlankEnd l) eqn:E; [reflexivity|].
  rewrite <- E. apply dropBlankEnd_id, dropBlankEnd_last. congruence.
Qed.

Lemma mdTrimEmptyLines_nil (l : list string) :
  mdTrimEmptyLines l = [] <-> forallb blankLine l = true.
Proof.
  rewrite mdTrimEmptyLines_eq. split.
  - intros H. apply dropBlank_nil.
    destruct (dropBlank l) as [|x r] eqn:E; [reflexivity|].
    destruct (dropBlankEnd_head x r (dropBlank_head _ _ _ E)) as [r' Hr'].
    congruence.
  - intros H. apply dropBlank_nil in H. now rewrite H.
Qed.

Lemma mdTrimEmptyLines_ends (l : list string) :
  mdTrimEmptyLines l <> [] ->
  nonEmptyLine (hd EmptyString (mdTrimEmptyLines l)) = true
  /\ nonEmptyLine (last (mdTrimEmptyLines l) EmptyString) = true.
Proof.
  rewrite !mdTrimEmptyLines_eq.
  intros Hne. split; [|now apply dropBlankEnd_last].
  destruct (dropBlank l) as [|x r] eqn:E; [now destruct Hne|].
  pose proof (dropBlank_head _ _ _ E) as Hx.
  destruct (dropBlankEnd_head x r Hx) as [r' ->]. exact Hx.
Qed.

End TrimFacts.

(** X1.  [mdTrimEmptyLines] removes the blank lines at the front and at
    the back and nothing else: the result is empty exactly when every
    line is blank, otherwise its first and its last line are not blank;
    trimming twice is trimming once. *)
Theorem mdTrimEmptyLines_trims (l : list string) :
  mdTrimEmptyLines l = dropBlankEnd (dropBlank l)
  /\ (mdTrimEmptyLines l = [] <-> forallb blankLine l = true)
  /\ (mdTrimEmptyLines l <> [] ->
      nonEmptyLine (hd EmptyString (mdTrimEmptyLines l)) = true
      /\ nonEmptyLine (last (mdTrimEmptyLines l) EmptyString) = true)
  /\ mdTrimEmptyLines (mdTrimEmptyLines l) = mdTrimEmptyLines l.
Proof.
  split; [apply mdTrimEmptyLines_eq|].
  split; [apply mdTrimEmptyLines_nil|].
  split; [apply mdTrimEmptyLines_ends|].
  rewrite !mdTrimEmptyLines_eq.
  destruct (dropBlank l) as [|x r] eqn:E; [reflexivity|].
  pose proof (dropBlank_head _ _ _ E) as Hx.
  destruct (dropBlankEnd_head x r Hx) as [r' Hr'].
  rewrite Hr'. simpl dropBlank. unfold blankLine. rewrite Hx. simpl negb.
  cbv iota. rewrite <- Hr'. apply dropBlankEnd_idem.
Qed.

Lemma mdTrimEmptyLines_trims_witness :
  mdTrimEmptyLines ["" ; " "; "a"; ""; "b"; ""] = ["a"; ""; "b"]
  /\ nonEmptyLine (hd EmptyString
       (mdTrimEmptyLines ["" ; " "; "a"; ""; "b"; ""])) = true.
Proof.
  split; [reflexivity|].
  refine (proj1 (proj1 (proj2 (proj2
            (mdTrimEmptyLines_trims ["" ; " "; "a"; ""; "b"; ""]))) _)).
  discriminate.
Defined.

Section CellInvariants.

Variable language : string.
Variable Q : string -> Prop.
Variable P : QuartoMdCell -> Prop.

Hypothesis flushed_P :
  forall kind buf, Forall Q buf -> Forall P (flushed language kind buf).

Lemma processLine_keeps st line :
  Forall Q (lineBuffer st) -> Q line -> Forall P (cells st) ->
  Forall Q (lineBuffer (processLine language st line))
  /\ Forall P (cells (processLine language st line)).
Proof.
  intros Hbuf Hline Hcells.
  assert (Hpush : Forall Q (lineBuffer st ++ [line]))
    by (apply Forall_app; split; [exact Hbuf | now constructor]).
  unfold processLine.
  destruct (yamlRegEx line && negb (inCodeCell st) && negb (inCode st)).
  { destruct (inYaml st); simpl; rewrite flushLineBuffer_eq; simpl.
    - split; [constructor|]. apply Forall_app. split; auto.
    - split; [now repeat constructor|]. apply Forall_app. split; auto. }
  destruct (startCodeCellRegEx language line).
  { simpl. rewrite flushLineBuffer_eq. simpl.
    split; [constructor|]. apply Forall_app. split; auto. }
  destruct (endCodeRegEx line); [destruct (inCodeCell st)|].
  - rewrite flushLineBuffer_eq. simpl.
    split; [constructor|]. apply Forall_app. split; auto.
  - simpl. auto.
  - destruct (startCodeRegEx line); simpl; auto.
Qed.

Lemma fold_keeps ls : forall st,
  Forall Q ls -> Forall Q (lineBuffer st) -> Forall P (cells st) ->
  Forall Q (lineBuffer (fold_left (processLine language) ls st))
  /\ Forall P (cells (fold_left (processLine language) ls st)).
Proof.
  induction ls as [|line ls IH]; intros st Hls Hbuf Hcells; simpl; auto.
  inversion Hls; subst.
  destruct (processLine_keeps st line Hbuf) as [Hb Hc]; auto.
Qed.

Lemma segment_keeps ls :
  Forall Q ls -> Forall P (cells (segment language ls)).
Proof.
  intros Hls. unfold segment. rewrite flushLineBuffer_eq. simpl.
  destruct (fold_keeps ls initialState Hls) as [Hb Hc];
    [constructor | constructor |].
  apply Forall_app. split; auto.
Qed.

End CellInvariants.

Section SourceEntries.

Lemma string_append_assoc s t u :
  ((s ++ t) ++ u)%string = (s ++ (t ++ u))%string.
Proof. induction s as [|c s IH]; simpl; congruence. Qed.

Lemma rev_string_acc s : forall acc,
  rev_string acc s = (rev_string EmptyString s ++ acc)%string.
Proof.
  induction s as [|c s IH]; intros acc; simpl; [reflexivity|].
  rewrite IH, (IH (String c EmptyString)).
  now rewrite string_append_assoc.
Qed.

Lemma rev_string_append s t :
  rev_string EmptyString (s ++ t)%string
  = (rev_string EmptyString t ++ rev_string EmptyString s)%string.
Proof.
  induction s as [|c s IH]; simpl.
  - now rewrite append_empty_r.
  - rewrite (rev_string_acc (s ++ t)), IH.
    rewrite (rev_string_acc s (String c EmptyString)).
    apply string_append_assoc.
Qed.

Lemma startsWith_append p : forall s, startsWith (p ++ s)%string p = true.
Proof.
  induction p as [|c p IH]; intros s; simpl.
  - now destruct s.
  - now rewrite Ascii.eqb_refl, IH.
Qed.

Lemma endsWith_append s p : endsWith (s ++ p)%string p = true.
Proof.
  unfold endsWith. rewrite rev_string_append. apply startsWith_append.
Qed.

Lemma mapi_from_feeds (n : nat) (l : list string) : forall i,
  i + length l = S n ->
  Forall (fun s => endsWith s nl = true)
    (removelast (mapi_from i
       (fun line index =>
          (line ++ (if (index <? n)%nat then nl else ""))%string) l)).
Proof.
  induction l as [|x l IH]; intros i Hn; [constructor|].
  destruct l as [|y l]; [constructor|].
  change (mapi_from i _ (x :: y :: l))
    with ((x ++ (if (i <? n)%nat then nl else ""))%string
          :: mapi_from (S i)
               (fun line index =>
                  (line ++ (if (index <? n)%nat then nl else ""))%string)
               (y :: l)).
  simpl length in Hn.
  assert (Hi : (i <? n)%nat = true) by (apply Nat.ltb_lt; lia).
  rewrite Hi.
  match goal with
  | |- Forall _ (removelast (?a :: ?r)) =>
      assert (Hr : r <> []) by (simpl; discriminate);
      replace (removelast (a :: r)) with (a :: removelast r)
        by (destruct r; [contradiction | reflexivity])
  end.
  constructor; [apply endsWith_append|].
  apply IH. simpl. lia.
Qed.

Lemma cellSource_feeds (buf : list string) :
  Forall (fun s => endsWith s nl = true) (removelast (cellSource buf)).
Proof.
  destruct buf as [|x buf]; [constructor|].
  unfold cellSource, mapi.
  apply mapi_from_feeds. simpl. lia.
Qed.

Lemma removelast_middle {A} (Pr : A -> Prop) (a r b : list A) :
  Forall Pr (removelast (a ++ r ++ b)) -> Forall Pr (removelast r).
Proof.
  intros H. destruct r as [|x r] using rev_ind; [constructor|].
  rewrite removelast_last.
  replace (a ++ (r ++ [x]) ++ b) with ((a ++ r) ++ (x :: b)) in H
    by now rewrite <- !app_assoc.
  rewrite removelast_app in H by discriminate.
  apply Forall_app in H as [H _]. now apply Forall_app in H as [_ H].
Qed.

Lemma flushed_entries language kind buf :
  Forall (fun s => hasLF s = false) buf ->
  Forall (fun c =>
            Forall (fun s => endsWith s nl = true) (removelast (source c))
            /\ Forall (fun s => hasLF (chomp s) = false) (source c))
         (flushed language kind buf).
Proof.
  intros Hlf. unfold flushed. destruct buf as [|x0 buf0]; [constructor|].
  set (buf := x0 :: buf0) in *.
  destruct (spliceFirstEmpty_spec buf) as (h1 & E1 & _).
  destruct (spliceLastEmpty_spec (spliceFirstEmpty buf)) as (h2 & E2 & _).
  set (mid := spliceLastEmpty (spliceFirstEmpty buf)) in *.
  assert (Hmid : Forall (fun s => hasLF s = false) mid).
  { rewrite E1, E2 in Hlf.
    apply Forall_app in Hlf as [_ Hlf].
    now apply Forall_app in Hlf as [Hlf _]. }
  destruct (mdTrimEmptyLines_spec (cellSource mid)) as (a & b & E3 & _ & _).
  pose proof (cellSource_feeds mid) as Hfeeds.
  pose proof (cellSource_chomp mid Hmid) as Hch.
  unfold newCells.
  destruct (mdTrimEmptyLines (cellSource mid)) as [|s src] eqn:Es;
    constructor; [|constructor]. cbn [source]. split.
  - rewrite E3 in Hfeeds. eapply removelast_middle. exact Hfeeds.
  - rewrite E3, !map_app in Hch.
    assert (Hall : Forall (fun s => hasLF s = false)
                     (map chomp a ++ map chomp (s :: src) ++ map chomp b))
      by now rewrite Hch.
    apply Forall_app in Hall as [_ Hall].
    apply Forall_app in Hall as [Hall _].
    now rewrite Forall_map in Hall.
Qed.

Lemma flushed_trimmed language kind buf :
  Forall (fun c =>
            cell_type c = cellTypeOf language kind
            /\ nonEmptyLine (hd EmptyString (source c)) = true
            /\ nonEmptyLine (last (source c) EmptyString) = true)
         (flushed language kind buf).
Proof.
  unfold flushed. destruct buf; [constructor|]. unfold newCells.
  destruct (mdTrimEmptyLines _) as [|entry entries] eqn:E; constructor;
    [|constructor].
  cbn [cell_type source]. split; [reflexivity|]. rewrite <- E.
  apply mdTrimEmptyLines_ends. rewrite E. discriminate.
Qed.

End SourceEntries.

(** X2.  Every cell that [breakQuartoMd] returns is Markdown, raw or code
    of the target language, and its source neither starts nor ends with
    a blank line. *)
Theorem breakQuartoMd_cells_trimmed (src language : string) :
  Forall (fun c =>
            (cell_type c = Markdown \/ cell_type c = Raw
             \/ cell_type c = Code language)
            /\ nonEmptyLine (hd EmptyString (source c)) = true
            /\ nonEmptyLine (last (source c) EmptyString) = true)
         (breakQuartoMd src language).
Proof.
  apply (segment_keeps language (fun _ => True)).
  - intros kind buf _.
    eapply Forall_impl; [|apply flushed_trimmed].
    simpl. intros c (Ht & Hh & Hl). split; [|now split].
    rewrite Ht. destruct kind; simpl; auto.
  - apply Forall_forall. auto.
Qed.

(** X3.  In every cell that [breakQuartoMd] returns, each source entry
    but the last ends with a line feed, and no entry holds a line feed
    anywhere else: the entries are the lines of the cell, each with its
    own line end. *)
Theorem breakQuartoMd_source_entries (src language : string) :
  Forall (fun c =>
            Forall (fun s => endsWith s nl = true) (removelast (source c))
            /\ Forall (fun s => hasLF (chomp s) = false) (source c))
         (breakQuartoMd src language).
Proof.
  apply (segment_keeps language (fun s => hasLF s = false)).
  - intros kind buf. apply flushed_entries.
  - apply lines_noLF.
Qed.

Section Runs.

Variable language : string.

Lemma endCode_startCode line :
  endCodeRegEx line = true -> startCodeRegEx line = true.
Proof.
  unfold endCodeRegEx, startCodeRegEx.
  now destruct (stripPrefix "```" line).
Qed.

Lemma plainLine_push st line :
  plainLine language st line = true ->
  processLine language st line = push st line.
Proof.
  unfold plainLine, processLine. intros H.
  apply andb_true_iff in H as [H Hy]. apply andb_true_iff in H as [Hs Hc].
  apply negb_true_iff in Hs, Hc. rewrite Hs, Hc.
  assert (He : endCodeRegEx line = false).
  { destruct (endCodeRegEx line) eqn:E; [|reflexivity].
    apply endCode_startCode in E. congruence. }
  rewrite He.
  destruct (yamlRegEx line); [|reflexivity].
  simpl in Hy. apply orb_true_iff in Hy as [-> | ->]; simpl;
    [reflexivity | now rewrite andb_false_r].
Qed.

Lemma plain_fold ls : forall st,
  forallb (plainLine language st) ls = true ->
  fold_left (processLine language) ls st
  = withBuffer st (lineBuffer st ++ ls).
Proof.
  induction ls as [|line ls IH]; intros st H; simpl.
  - rewrite app_nil_r. now destruct st.
  - apply andb_true_iff in H as [Hl Hls].
    rewrite (plainLine_push _ _ Hl), IH by exact Hls.
    unfold push, withBuffer. simpl. now rewrite <- app_assoc.
Qed.

Lemma prose_fold ls : forall st,
  inCodeCell st = false ->
  forallb (proseLine language) ls = true ->
  exists c,
    fold_left (processLine language) ls st
    = mkState (cells st) (lineBuffer st ++ ls) (parsedFrontMatter st)
              (inYaml st) false c.
Proof.
  induction ls as [|line ls IH]; intros st Hcell H; simpl.
  - exists (inCode st). rewrite app_nil_r. destruct st; simpl in *.
    now subst.
  - apply andb_true_iff in H as [Hl Hls].
    unfold proseLine in Hl. apply andb_true_iff in Hl as [Hy Hs].
    apply negb_true_iff in Hy, Hs.
    assert (Hstep : exists c,
               processLine language st line
               = mkState (cells st) (lineBuffer st ++ [line])
                         (parsedFrontMatter st) (inYaml st) false c).
    { unfold processLine. rewrite Hy, Hs. simpl.
      destruct (endCodeRegEx line);
        [rewrite Hcell | destruct (startCodeRegEx line)];
        unfold push, setInCode, withBuffer; simpl; rewrite ?Hcell;
        eexists; reflexivity. }
    destruct Hstep as [c ->].
    destruct (IH (mkState (cells st) (lineBuffer st ++ [line])
                    (parsedFrontMatter st) (inYaml st) false c)
                 eq_refl Hls) as [c' ->].
    exists c'. simpl. now rewrite <- app_assoc.
Qed.

Lemma processLine_frame pre st1 st2 line :
  sameFrom pre st1 st2 ->
  sameFrom pre (processLine language st1 line)
               (processLine language st2 line).
Proof.
  destruct st1 as [c1 b1 p1 y1 cc1 k1], st2 as [c2 b2 p2 y2 cc2 k2].
  unfold sameFrom. simpl. intros (-> & -> & -> & -> & ->).
  unfold processLine. simpl.
  destruct (yamlRegEx line && negb cc2 && negb k2).
  { destruct y2; simpl; rewrite !flushLineBuffer_eq; simpl;
      rewrite <- ?app_assoc; repeat split. }
  destruct (startCodeCellRegEx language line).
  { simpl. rewrite !flushLineBuffer_eq. simpl.
    rewrite <- ?app_assoc. repeat split. }
  destruct (endCodeRegEx line); [destruct cc2|].
  - rewrite !flushLineBuffer_eq. simpl.
    rewrite <- ?app_assoc. repeat split.
  - simpl. repeat split.
  - destruct (startCodeRegEx line); simpl; repeat split.
Qed.

Lemma fold_frame pre ls : forall st1 st2,
  sameFrom pre st1 st2 ->
  sameFrom pre (fold_left (processLine language) ls st1)
               (fold_left (processLine language) ls st2).
Proof.
  induction ls as [|line ls IH]; intros st1 st2 H; simpl; [exact H|].
  apply IH. now apply processLine_frame.
Qed.

(** The cells of the rest of a document, read from a state at rest. *)
Lemma resume_cells st rest :
  atRest st ->
  cells (flushLineBuffer language FlushMarkdown false
           (fold_left (processLine language) rest st))
  = cells st ++ cells (segment language rest).
Proof.
  intros (Hb & Hy & Hc & Hk).
  assert (H : sameFrom (cells st) st initialState).
  { unfold sameFrom. simpl. now rewrite app_nil_r. }
  apply (fold_frame _ rest) in H.
  destruct H as (Hcells & Hbuf & _).
  unfold segment. rewrite !flushLineBuffer_eq. simpl.
  now rewrite Hcells, Hbuf, app_assoc.
Qed.

Lemma fold_left_app_lines (ls1 ls2 : list string) st :
  fold_left (processLine language) (ls1 ++ ls2) st
  = fold_left (processLine language) ls2
      (fold_left (processLine language) ls1 st).
Proof. apply fold_left_app. Qed.

End Runs.

Section BlankBuffers.

Lemma mapi_from_blank_all (n : nat) (l : list string) : forall i,
  forallb blankLine l = true ->
  forallb blankLine
    (mapi_from i
       (fun line index =>
          (line ++ (if (index <? n)%nat then nl else ""))%string) l)
  = true.
Proof.
  induction l as [|x l IH]; intros i H; simpl; [reflexivity|].
  simpl in H. apply andb_true_iff in H as [Hx Hl].
  rewrite (IH _ Hl), andb_true_r.
  destruct (i <? n)%nat.
  - now rewrite blankLine_nl.
  - now rewrite append_empty_r.
Qed.

Lemma forallb_removelast {A} (p : A -> bool) (l : list A) :
  forallb p l = true -> forallb p (removelast l) = true.
Proof.
  induction l as [|x l IH]; [reflexivity|].
  intros H. apply andb_true_iff in H as [Hx Hl].
  destruct l as [|y l]; [reflexivity|].
  change (removelast (x :: y :: l)) with (x :: removelast (y :: l)).
  simpl forallb at 1. rewrite Hx. now apply IH.
Qed.

Lemma trimmedSource_blank (buf : list string) :
  forallb blankLine buf = true -> trimmedSource buf = [].
Proof.
  intros H. unfold trimmedSource. apply mdTrimEmptyLines_nil.
  apply mapi_from_blank_all.
  assert (H1 : forallb blankLine (spliceFirstEmpty buf) = true).
  { destruct buf as [|x buf]; [reflexivity|]. simpl.
    simpl in H. apply andb_true_iff in H as [Hx Hb].
    destruct (x =? "")%string; [exact Hb|].
    simpl. now rewrite Hx. }
  unfold spliceLastEmpty.
  destruct (spliceFirstEmpty buf) as [|y r]; [reflexivity|].
  destruct (last (y :: r) "x" =? "")%string; [|exact H1].
  now apply forallb_removelast.
Qed.

Lemma flushed_trimmedSource language kind buf :
  flushed language kind buf
  = match trimmedSource buf with
    | [] => []
    | entry :: entries =>
        [mkCell (cellTypeOf language kind) (entry :: entries)]
    end.
Proof.
  unfold flushed, trimmedSource, newCells.
  destruct buf; [reflexivity|].
  now destruct (mdTrimEmptyLines _).
Qed.

Lemma yaml_not_blank line : yamlRegEx line = true -> blankLine line = false.
Proof.
  unfold yamlRegEx.
  destruct (stripPrefix "---" line) eqn:E; [|discriminate].
  apply stripPrefix_Some in E. subst. intros _.
  unfold blankLine. now rewrite nonEmptyLine_spec.
Qed.

Lemma startCodeCell_not_blank language line :
  startCodeCellRegEx language line = true -> blankLine line = false.
Proof.
  unfold startCodeCellRegEx, blankLine.
  rewrite nonEmptyLine_spec, negb_involutive.
  destruct (allWhiteSpace line) eqn:E; [|reflexivity].
  now rewrite (trimStart_allWhiteSpace _ E).
Qed.

Lemma segment_prose (language : string) (ls : list string) :
  forallb (proseLine language) ls = true ->
  cells (segment language ls)
  = match trimmedSource ls with
    | [] => []
    | entry :: entries => [mkCell Markdown (entry :: entries)]
    end.
Proof.
  intros H. unfold segment.
  destruct (prose_fold language ls initialState eq_refl H) as [c ->].
  rewrite flushLineBuffer_eq. simpl.
  now rewrite (flushed_trimmedSource language FlushMarkdown).
Qed.

End BlankBuffers.

(** X4.  A document without front-matter delimiter and without opening
    fence of the target language gives one Markdown cell, made of all
    its lines between the blank ones at both ends, or no cell when
    nothing is left. *)
Theorem prose_is_one_cell (src language : string) :
  forallb (proseLine language) (lines src) = true ->
  breakQuartoMd src language
  = match trimmedSource (lines src) with
    | [] => []
    | entry :: entries => [mkCell Markdown (entry :: entries)]
    end.
Proof.
  intros H. unfold breakQuartoMd. now apply segment_prose.
Qed.

Lemma prose_is_one_cell_witness :
  breakQuartoMd (unlines [""; "# Title"; ""; "```r"; "1+1"; "```"; ""])
    "python"
  = [mkCell Markdown
       ["# Title" ++ nl; nl; "```r" ++ nl; "1+1" ++ nl; "```"]%string].
Proof.
  exact (prose_is_one_cell
           (unlines [""; "# Title"; ""; "```r"; "1+1"; "```"; ""])
           "python" eq_refl).
Defined.

(** X5.  A document whose lines are all blank, the empty document among
    them, gives no cell. *)
Theorem blank_document_has_no_cell (src language : string) :
  forallb blankLine (lines src) = true ->
  breakQuartoMd src language = [].
Proof.
  intros H. unfold breakQuartoMd. rewrite segment_prose.
  - now rewrite trimmedSource_blank.
  - apply forallb_forall. intros l Hl.
    rewrite forallb_forall in H. specialize (H l Hl).
    unfold proseLine.
    destruct (yamlRegEx l) eqn:Ey;
      [apply yaml_not_blank in Ey; congruence|].
    destruct (startCodeCellRegEx language l) eqn:Es;
      [apply startCodeCell_not_blank in Es; congruence|].
    reflexivity.
Qed.

Lemma blank_document_has_no_cell_witness :
  breakQuartoMd "" "python" = []
  /\ breakQuartoMd (unlines [" "; ""; "  "]) "r" = [].
Proof.
  split.
  - exact (blank_document_has_no_cell "" "python" eq_refl).
  - exact (blank_document_has_no_cell (unlines [" "; ""; "  "]) "r"
             eq_refl).
Defined.

(** X6.  When the lines of a first document leave the segmenter at rest
    (nothing buffered, outside front matter and code), the cells of a
    document that continues with the lines of a second one are the
    cells of the first followed by the cells of the second. *)
Theorem breakQuartoMd_resumes (src src1 src2 language : string) :
  lines src = lines src1 ++ lines src2 ->
  atRest (fold_left (processLine language) (lines src1) initialState) ->
  breakQuartoMd src language
  = breakQuartoMd src1 language ++ breakQuartoMd src2 language.
Proof.
  intros Hsrc Hrest. unfold breakQuartoMd at 1. unfold segment.
  rewrite Hsrc, fold_left_app_lines, resume_cells by exact Hrest.
  f_equal. unfold breakQuartoMd, segment.
  rewrite flushLineBuffer_eq. simpl.
  destruct Hrest as (-> & _). simpl. now rewrite app_nil_r.
Qed.

Lemma breakQuartoMd_resumes_witness :
  let src1 := unlines ["```{python}"; "x"; "```"] in
  let src2 := unlines ["b"; "```{python}"; "y"; "```"] in
  breakQuartoMd (unlines [src1; src2]) "python"
  = breakQuartoMd src1 "python" ++ breakQuartoMd src2 "python".
Proof.
  intros src1 src2.
  apply (breakQuartoMd_resumes (unlines [src1; src2]) src1 src2 "python").
  - reflexivity.
  - repeat split; reflexivity.
Defined.

Section Blocks.

Variable language : string.

Lemma mapi_from_snoc (n : nat) (l : list string) x : forall i,
  i + length l = n ->
  mapi_from i
    (fun line index =>
       (line ++ (if (index <? n)%nat then nl else ""))%string) (l ++ [x])
  = map (fun s => (s ++ nl)%string) l ++ [x].
Proof.
  induction l as [|y l IH]; intros i Hn; simpl.
  - simpl in Hn. replace (i <? n)%nat with false
      by (symmetry; apply Nat.ltb_ge; lia).
    now rewrite append_empty_r.
  - simpl in Hn. replace (i <? n)%nat with true
      by (symmetry; apply Nat.ltb_lt; lia).
    f_equal. apply IH. lia.
Qed.

Lemma cellSource_snoc (l : list string) x :
  cellSource (l ++ [x]) = map (fun s => (s ++ nl)%string) l ++ [x].
Proof.
  unfold cellSource, mapi. apply mapi_from_snoc.
  rewrite length_app. simpl. lia.
Qed.

Lemma nonEmpty_not_empty x : nonEmptyLine x = true -> (x =? "")%string = false.
Proof. destruct x; [discriminate | reflexivity]. Qed.

(** A buffer whose first and last lines are not blank is emitted whole. *)
Lemma trimmedSource_whole (l : list string) x :
  nonEmptyLine (hd x l) = true -> nonEmptyLine x = true ->
  trimmedSource (l ++ [x]) = map (fun s => (s ++ nl)%string) l ++ [x].
Proof.
  intros Hh Hx. unfold trimmedSource.
  assert (H1 : spliceFirstEmpty (l ++ [x]) = l ++ [x]).
  { destruct l as [|y l]; simpl in *.
    - now rewrite (nonEmpty_not_empty _ Hx).
    - now rewrite (nonEmpty_not_empty _ Hh). }
  rewrite H1.
  assert (H2 : spliceLastEmpty (l ++ [x]) = l ++ [x]).
  { unfold spliceLastEmpty. destruct (l ++ [x]) eqn:E.
    - reflexivity.
    - rewrite <- E, last_last. now rewrite (nonEmpty_not_empty _ Hx). }
  rewrite H2, cellSource_snoc, mdTrimEmptyLines_eq.
  assert (H3 : dropBlank (map (fun s => (s ++ nl)%string) l ++ [x])
               = map (fun s => (s ++ nl)%string) l ++ [x]).
  { destruct l as [|y l]; simpl in *.
    - unfold blankLine. now rewrite Hx.
    - rewrite blankLine_nl. unfold blankLine. now rewrite Hh. }
  rewrite H3. apply dropBlankEnd_id. now rewrite last_last.
Qed.

Lemma forallb_impl {A} (p q : A -> bool) (l : list A) :
  (forall x, p x = true -> q x = true) ->
  forallb p l = true -> forallb q l = true.
Proof.
  intros Hpq H. apply forallb_forall. intros x Hx.
  rewrite forallb_forall in H. auto.
Qed.

End Blocks.

(** X7.  A document that opens with a front-matter block (a delimiter
    line, lines that are neither delimiters nor fences, a delimiter
    line) gives first a raw cell that holds the whole block, delimiters
    included, each line but the last followed by a line feed; the rest
    of the document is segmented as if it stood alone. *)
Theorem front_matter_cell (src language : string)
    (opening closing : string) (body rest : list string) :
  lines src = opening :: body ++ closing :: rest ->
  yamlRegEx opening = true ->
  yamlRegEx closing = true ->
  forallb (innerLine language) body = true ->
  breakQuartoMd src language
  = mkCell Raw (map (fun l => (l ++ nl)%string) (opening :: body)
                ++ [closing])
    :: cells (segment language rest).
Proof.
  intros Hsrc Ho Hc Hbody.
  unfold breakQuartoMd. unfold segment at 1. rewrite Hsrc.
  change (fold_left (processLine language) (opening :: body ++ closing :: rest)
            initialState)
    with (fold_left (processLine language) (body ++ closing :: rest)
            (processLine language initialState opening)).
  assert (H1 : processLine language initialState opening
               = mkState [] [opening] false true false false).
  { unfold processLine. now rewrite Ho. }
  rewrite H1, fold_left_app_lines, (plain_fold language body).
  2:{ eapply forallb_impl; [|exact Hbody].
      intros l Hl. unfold innerLine in Hl. unfold plainLine. simpl.
      apply andb_true_iff in Hl as [Hl Hs].
      apply andb_true_iff in Hl as [Hy Hcc].
      now rewrite Hy, Hcc, Hs. }
  change (fold_left (processLine language) (closing :: rest) ?st)
    with (fold_left (processLine language) rest
            (processLine language st closing)).
  match goal with
  | |- context [processLine language ?st closing] =>
      assert (H2 : processLine language st closing
                   = mkState (flushed language FlushRaw
                                ((opening :: body) ++ [closing]))
                             [] true false false false)
  end.
  { unfold processLine, withBuffer. simpl. rewrite Hc. simpl.
    now rewrite flushLineBuffer_eq. }
  rewrite H2, resume_cells by (repeat split; reflexivity).
  cbn [cells].
  rewrite (flushed_trimmedSource language FlushRaw
             ((opening :: body) ++ [closing])).
  rewrite trimmedSource_whole.
  - reflexivity.
  - simpl. apply yaml_not_blank in Ho. unfold blankLine in Ho.
    now apply negb_false_iff in Ho.
  - apply yaml_not_blank in Hc. unfold blankLine in Hc.
    now apply negb_false_iff in Hc.
Qed.

Lemma front_matter_cell_witness :
  breakQuartoMd (unlines ["---"; "title: Foo"; "---"; "Hello"; ""]) "python"
  = [mkCell Raw ["---" ++ nl; "title: Foo" ++ nl; "---"]%string;
     mkCell Markdown ["Hello"]].
Proof.
  exact (front_matter_cell
           (unlines ["---"; "title: Foo"; "---"; "Hello"; ""]) "python"
           "---" "---" ["title: Foo"] ["Hello"; ""]
           eq_refl eq_refl eq_refl eq_refl).
Defined.



Section FenceFacts.

Lemma stripPrefix_append p : forall r, stripPrefix p (p ++ r)%string = Some r.
Proof.
  induction p as [|c p IH]; intros r; simpl; [reflexivity|].
  now rewrite Ascii.eqb_refl.
Qed.

Lemma trimStart_indent ws : forall s,
  allWhiteSpace ws = true ->
  trimStart (ws ++ s)%string = trimStart s.
Proof.
  induction ws as [|c ws IH]; intros s H; simpl in *; [reflexivity|].
  apply andb_true_iff in H as [Hc Hws]. rewrite Hc. now apply IH.
Qed.

Lemma skipBackticks_run ticks : forall s,
  allBackticks ticks = true ->
  skipBackticks (ticks ++ s)%string = skipBackticks s.
Proof.
  induction ticks as [|c ticks IH]; intros s H; simpl in *; [reflexivity|].
  apply andb_true_iff in H as [Hc Ht]. rewrite Hc. now apply IH.
Qed.

Lemma dotStarBrace_options opts :
  noLineTerminator opts = true ->
  dotStarBrace (opts ++ "}")%string = true.
Proof.
  induction opts as [|c opts IH]; simpl; [reflexivity|].
  intros H. apply andb_true_iff in H as [Hc Ho].
  rewrite Hc, (IH Ho). apply orb_true_r.
Qed.

Lemma startCodeCellRegEx_tail language tail :
  startCodeCellRegEx language ("```{" ++ language ++ tail)%string
  = optionsThenBrace tail.
Proof.
  unfold startCodeCellRegEx. simpl.
  now rewrite stripPrefix_append.
Qed.

End FenceFacts.





(* ================================================================== *)
(** * Further properties of the automation *)
(* ================================================================== *)

Section WordFacts.

Lemma startsWith_empty s : startsWith s EmptyString = true.
Proof. now destruct s. Qed.

Lemma endsWith_empty s : endsWith s EmptyString = true.
Proof. unfold endsWith. apply startsWith_empty. Qed.

Lemma includes_cons c r p :
  includes (String c r) p = startsWith (String c r) p || includes r p.
Proof. reflexivity. Qed.

Lemma string_length_append s t :
  String.length (s ++ t)%string = String.length s + String.length t.
Proof. induction s as [|c s IH]; simpl; congruence. Qed.

Lemma afterLastSpace_spec s :
  includes (afterLastSpace s) " " = false
  /\ exists pre, s = (pre ++ afterLastSpace s)%string.
Proof.
  induction s as [|c r [IH1 [pre IH2]]].
  - split; [reflexivity | now exists EmptyString].
  - change (afterLastSpace (String c r))
      with (if includes r " " then afterLastSpace r
            else if Ascii.eqb c " " then r else String c r).
    destruct (includes r " ") eqn:Er.
    + split; [exact IH1|]. exists (String c pre). simpl. now f_equal.
    + destruct (Ascii.eqb_spec c " ") as [-> | Hc].
      * split; [exact Er | now exists " "].
      * split; [|now exists EmptyString].
        rewrite includes_cons, startsWith_char, Er.
        destruct (Ascii.eqb_spec " " c); [congruence | reflexivity].
Qed.

End WordFacts.


Section ResultFacts.

Context {Tree Annotated : Type}.
Variable env : Collaborators Tree Annotated.

Lemma Forall_filter_keep {X} (Q : X -> Prop) (p : X -> bool) l :
  Forall Q l -> Forall Q (filter p l).
Proof.
  intros H. apply Forall_forall. intros x Hx.
  apply filter_In in Hx as [Hx _]. rewrite Forall_forall in H. auto.
Qed.

Lemma completions_prefixed schema path word indent prefix :
  Forall (fun c => startsWith (value c) word = true)
    (completions_of (completions env schema path word indent prefix)).
Proof.
  unfold completions. cbn [completions_of].
  eapply Permutation_Forall; [symmetry; apply sortBy_perm|].
  apply Forall_forall. intros c Hc. now apply filter_In in Hc as [_ Hc].
Qed.

Lemma completionsLoop_prefixed context word indent attempts result :
  completionsLoop env context word indent attempts = Some result ->
  Forall (fun c => startsWith (value c) (token result) = true)
         (completions_of result).
Proof.
  induction attempts as [|a attempts IH]; simpl; [discriminate|].
  destruct (blankLine _).
  { intros [= <-].
    unfold completeEmptyLineOnIndentation, keysOnly, withCompletions.
    cbn [completions_of token].
    apply Forall_filter_keep, completions_prefixed. }
  destruct (buildAnnotated env _ _); [|exact IH].
  intros [= <-]. unfold keysOnly, valuesOnly, withCompletions.
  destruct (includes (line context) ":");
    [|destruct (negb (includes (line context) "-"))];
    cbn [completions_of token];
    try apply Forall_filter_keep; apply completions_prefixed.
Qed.

Lemma completionsLoop_keys context word indent attempts result :
  includes (line context) ":" = false ->
  includes (line context) "-" = false ->
  completionsLoop env context word indent attempts = Some result ->
  Forall (fun c => isKey c = true) (completions_of result).
Proof.
  intros Hc Hd.
  induction attempts as [|a attempts IH]; simpl; [discriminate|].
  destruct (blankLine _).
  { intros [= <-]. apply filter_all. }
  destruct (buildAnnotated env _ _); [|exact IH].
  rewrite Hc, Hd. intros [= <-]. apply filter_all.
Qed.

End ResultFacts.

(** X12.  Whenever a completion request yields a result, the value of
    every completion in it starts with the token of the result. *)
Theorem completions_start_with_token {Tree Annotated : Type}
    (env : Collaborators Tree Annotated) (result : CompletionResult) :
  yieldsResult env result ->
  Forall (fun c => startsWith (value c) (token result) = true)
         (completions_of result).
Proof.
  intros Hyields.
  destruct (yieldsResult_origin env result Hyields) as [context Hres].
  revert Hres. unfold completionsFromGoodParseYAML.
  destruct (blankLine (line context)).
  - intros [= <-]. unfold keysOnly, withCompletions.
    cbn [completions_of token].
    apply Forall_filter_keep, completions_prefixed.
  - apply completionsLoop_prefixed.
Qed.

Lemma completions_start_with_token_witness :
  let env := exampleCollaborators (fun _ => true) [Key "echo"]
               (Some "echo: f") [] in
  let request := mkScriptContext (Some "python") "#| echo: f"
                   (mkPosition 0 10) "#| echo: f" in
  exists result,
    automationFromGoodParseScript env KCompletions request
    = CompletionsOf result
    /\ token result = "f"
    /\ map value (completions_of result) = ["false"]
    /\ Forall (fun c => startsWith (value c) (token result) = true)
              (completions_of result).
Proof.
  intros env request. eexists. split; [reflexivity|].
  split; [reflexivity|]. split; [reflexivity|].
  exact (completions_start_with_token env _
           (or_intror (or_intror (or_introl
              (ex_intro _ request eq_refl))))).
Defined.

(** X13.  On a line that holds neither a colon nor a dash, a white-space
    line among them, the YAML completer returns key completions only. *)
Theorem bare_line_completes_keys {Tree Annotated : Type}
    (env : Collaborators Tree Annotated) (context : Context)
    (result : CompletionResult) :
  includes (line context) ":" = false ->
  includes (line context) "-" = false ->
  completionsFromGoodParseYAML env context = Some result ->
  Forall (fun c => isKey c = true) (completions_of result).
Proof.
  intros Hc Hd. unfold completionsFromGoodParseYAML.
  destruct (blankLine (line context)).
  - intros [= <-]. apply filter_all.
  - now apply completionsLoop_keys.
Qed.

Lemma bare_line_completes_keys_witness :
  let env := exampleCollaborators (fun _ => true) [] None [] in
  let context := mkContext "ti" (mkPosition 0 2) (frontMatterSchema env)
                           "ti" None in
  completionsFromGoodParseYAML env context
  = Some (mkResult "ti"
            [mkCompletion KeyCompletion "title: " true
               (frontMatterSchema env)] true)
  /\ Forall (fun c => isKey c = true)
       [mkCompletion KeyCompletion "title: " true (frontMatterSchema env)].
Proof.
  intros env context. split; [reflexivity|].
  exact (bare_line_completes_keys env context _ eq_refl eq_refl eq_refl).
Defined.

(** X14.  [completions] changes a proposal only by appending a line
    break and indentation to its value: the kind, the schema and the
    flag stay, the old value is the beginning of the new one, and a
    value completion or one not to be suggested further is not changed
    at all. *)
Theorem indentation_only_appends {Tree Annotated : Type}
    (env : Collaborators Tree Annotated) (prefix : string) (indent : nat)
    (c : Completion) :
  let c' := indentCompletion env prefix indent c in
  ctype c' = ctype c
  /\ cschema c' = cschema c
  /\ suggest_on_accept c' = suggest_on_accept c
  /\ startsWith (value c') (value c) = true
  /\ (isValue c = true \/ suggest_on_accept c = false -> c' = c).
Proof.
  assert (Hself : forall s, startsWith s s = true).
  { intros s. rewrite <- (append_empty_r s) at 1. apply startsWith_append. }
  cbv zeta. unfold indentCompletion.
  destruct (suggest_on_accept c) eqn:Es; destruct (isValue c) eqn:Ev;
    simpl; try (repeat split; now auto).
  destruct (schemaType env (Some (cschema c)) =? "object")%string; simpl;
    [|repeat split; auto; intros [H | H]; congruence].
  destruct (schemaType env (propertyOf _ _) =? "object")%string;
    [|destruct (schemaType env (propertyOf _ _) =? "array")%string];
    simpl; repeat split; auto using startsWith_append;
    intros [H | H]; congruence.
Qed.

Lemma indentation_only_appends_witness :
  let env := exampleCollaborators (fun _ => true) [] None [] in
  let nested := SObject [("format", SObject [] [])] [] in
  value (indentCompletion env "#| " 2
           (mkCompletion KeyCompletion "format: " true nested))
  = ("format: " ++ nl ++ "#|     ")%string
  /\ indentCompletion env "#| " 2
       (mkCompletion ValueCompletion "true" true nested)
     = mkCompletion ValueCompletion "true" true nested.
Proof.
  intros env nested. split; [reflexivity|].
  exact (proj2 (proj2 (proj2 (proj2
           (indentation_only_appends env "#| " 2
              (mkCompletion ValueCompletion "true" true nested)))))
           (or_introl eq_refl)).
Defined.



Section DispatchFacts.

Context {Tree Annotated : Type}.
Variable env : Collaborators Tree Annotated.

Lemma lintCells_schema context s cells : forall linesSoFar lints,
  lintCells env (withSchema context s) cells linesSoFar lints
  = lintCells env context cells linesSoFar lints.
Proof.
  induction cells as [|cell cells IH]; intros linesSoFar lints;
    [reflexivity|].
  cbn [lintCells].
  change (frontMatterContext env (withSchema context s) cell)
    with (frontMatterContext env context cell).
  change (position (withSchema context s)) with (position context).
  change (line (withSchema context s)) with (line context).
  match goal with
  | |- match ?x with _ => _ end = _ => destruct x
  end; auto.
Qed.

Lemma lintCells_kind context cells : forall linesSoFar lints,
  (exists lints',
      lintCells env context cells linesSoFar lints = LintsOf lints')
  \/ (exists message,
         lintCells env context cells linesSoFar lints = Threw message).
Proof.
  induction cells as [|cell cells IH]; intros linesSoFar lints.
  - left. now exists lints.
  - cbn [lintCells].
    match goal with
    | |- (exists l, match ?x with _ => _ end = _) \/ _ => destruct x
    end; auto.
    right. eauto.
Qed.

Lemma lintCells_prose context cells : forall linesSoFar lints,
  Forall (fun cell => mcell_type cell = MdMarkdown
                      \/ mcell_type cell = MdMath) cells ->
  lintCells env context cells linesSoFar lints = LintsOf lints.
Proof.
  induction cells as [|cell cells IH]; intros linesSoFar lints H;
    [reflexivity|].
  inversion H as [|c l Hcell Hrest]; subst.
  cbn [lintCells].
  destruct Hcell as [-> | ->]; now apply IH.
Qed.

End DispatchFacts.

(** X16.  The Markdown handler never uses the schema of the request (the
    dispatcher hands it none): the front matter is completed and linted
    against the front-matter schema, the cells against the schema of
    their language.  A cursor in prose, or beyond the last cell, gets no
    completion. *)
Theorem markdown_handler_ignores_schema {Tree Annotated : Type}
    (env : Collaborators Tree Annotated) (kind : Kind) (context : Context)
    (s : Schema) :
  automationFromGoodParseMarkdown env kind (withSchema context s)
  = automationFromGoodParseMarkdown env kind context
  /\ (cellUnderCursor env context = None ->
      automationFromGoodParseMarkdown env KCompletions context
      = NoAutomation)
  /\ (forall cell,
         cellUnderCursor env context = Some cell ->
         mcell_type cell = MdMarkdown ->
         automationFromGoodParseMarkdown env KCompletions context
         = NoAutomation).
Proof.
  split; [|split].
  - unfold automationFromGoodParseMarkdown. destruct kind.
    + reflexivity.
    + apply lintCells_schema.
  - unfold cellUnderCursor, automationFromGoodParseMarkdown.
    now intros ->.
  - unfold cellUnderCursor, automationFromGoodParseMarkdown.
    now intros cell -> ->.
Qed.

Lemma markdown_handler_ignores_schema_witness :
  let env := exampleCollaborators (fun _ => true) [] None
               [mkMappedCell MdRaw (unlines ["---"; "title: x"; "---"]) 0;
                mkMappedCell MdMarkdown "Hello" 3] in
  let document := mkContext "Hel" (mkPosition 3 3) (SScalar "null" [])
                    (unlines ["---"; "title: x"; "---"; "Hello"]) None in
  let beyond := mkContext "Hel" (mkPosition 9 3) (SScalar "null" [])
                  (unlines ["---"; "title: x"; "---"; "Hello"]) None in
  automationFromGoodParseMarkdown env KCompletions document = NoAutomation
  /\ automationFromGoodParseMarkdown env KCompletions beyond = NoAutomation.
Proof.
  intros env document beyond. split.
  - exact (proj2 (proj2 (markdown_handler_ignores_schema env KCompletions
                           document (SScalar "null" [])))
             (mkMappedCell MdMarkdown "Hello" 3) eq_refl eq_refl).
  - exact (proj1 (proj2 (markdown_handler_ignores_schema env KCompletions
                           beyond (SScalar "null" []))) eq_refl).
Defined.

(** X17.  Linting a Markdown document returns a list of lints, or throws
    when a handler does; it never answers [false] and never returns
    completions.  A document whose cells are all prose or math has no
    lint. *)
Theorem markdown_lints_are_a_list {Tree Annotated : Type}
    (env : Collaborators Tree Annotated) (context : Context) :
  ((exists lints,
       automationFromGoodParseMarkdown env KValidation context
       = LintsOf lints)
   \/ (exists message,
          automationFromGoodParseMarkdown env KValidation context
          = Threw message))
  /\ (Forall (fun cell => mcell_type cell = MdMarkdown
                          \/ mcell_type cell = MdMath)
             (breakQuartoMdMapped env (code context)) ->
      automationFromGoodParseMarkdown env KValidation context = LintsOf []).
Proof.
  split.
  - apply lintCells_kind.
  - apply lintCells_prose.
Qed.

Lemma markdown_lints_are_a_list_witness :
  let env := exampleCollaborators (fun _ => true) [] None
               [mkMappedCell MdMarkdown "# A" 0;
                mkMappedCell MdMath "$$x$$" 2] in
  automationFromGoodParseMarkdown env KValidation
    (mkContext "" (mkPosition 0 0) (SScalar "null" []) "# A" None)
  = LintsOf [].
Proof.
  intros env.
  apply (proj2 (markdown_lints_are_a_list env
                  (mkContext "" (mkPosition 0 0) (SScalar "null" [])
                             "# A" None))).
  exact (Forall_cons (mkMappedCell MdMarkdown "# A" 0) (or_introl eq_refl)
           (Forall_cons (mkMappedCell MdMath "$$x$$" 2) (or_intror eq_refl)
              (Forall_nil _))).
Defined.

Section HeaderFacts.

Lemma lowerRun_spec s : forall w rest,
  lowerRun s = (w, rest) -> s = (w ++ rest)%string /\ allLower w = true.
Proof.
  induction s as [|c s IH]; intros w rest.
  - intros [= <- <-]. now split.
  - change (lowerRun (String c s))
      with (if Nat.leb 97 (nat_of_ascii c) && Nat.leb (nat_of_ascii c) 122
            then let (w, rest) := lowerRun s in (String c w, rest)
            else (EmptyString, String c s)).
    destruct (Nat.leb 97 (nat_of_ascii c) && Nat.leb (nat_of_ascii c) 122)
      eqn:Ec.
    + destruct (lowerRun s) as [w' rest'] eqn:E.
      intros [= <- <-]. destruct (IH _ _ eq_refl) as [-> Hw].
      split; [reflexivity|].
      change (allLower (String c w'))
        with (Nat.leb 97 (nat_of_ascii c) && Nat.leb (nat_of_ascii c) 122
              && allLower w').
      now rewrite Ec, Hw.
    + intros [= <- <-]. now split.
Qed.

Lemma startsWith_prefix p : forall s,
  startsWith s p = true -> exists r, s = (p ++ r)%string.
Proof.
  induction p as [|a p IH]; intros s; simpl.
  - intros _. now exists s.
  - destruct s as [|b s]; [discriminate|]. intros H.
    apply andb_true_iff in H as [Hab Hs].
    apply Ascii.eqb_eq in Hab. subst b.
    destruct (IH _ Hs) as [r ->]. now exists r.
Qed.

Lemma bracedWord_spec s w :
  bracedWord s = Some w ->
  w <> EmptyString /\ allLower w = true
  /\ startsWith s ("{" ++ w ++ "}")%string = true.
Proof.
  unfold bracedWord. destruct s as [|c r]; [discriminate|].
  destruct (Ascii.eqb_spec c "{") as [-> | _]; [|discriminate].
  destruct (lowerRun r) as [w' rest] eqn:E.
  destruct (lowerRun_spec _ _ _ E) as [-> Hw].
  destruct (negb (w' =? "")%string) eqn:Ew; simpl; [|discriminate].
  destruct (startsWith rest "}") eqn:Eb; [|discriminate].
  intros [= <-]. split; [|split; [exact Hw|]].
  - apply negb_true_iff, String.eqb_neq in Ew. exact Ew.
  - destruct (startsWith_prefix _ _ Eb) as [r' ->].
    change ("{" ++ w' ++ "}")%string with (String "{" (w' ++ "}")).
    change (startsWith (String "{" (w' ++ "}" ++ r')) (String "{" (w' ++ "}")))
      with (Ascii.eqb "{" "{" && startsWith (w' ++ "}" ++ r') (w' ++ "}")).
    rewrite <- string_append_assoc. apply startsWith_append.
Qed.

Lemma headerLanguage_spec s : forall found w,
  headerLanguage s found = Some w ->
  found = Some w
  \/ (w <> EmptyString /\ allLower w = true
      /\ includes s ("{" ++ w ++ "}")%string = true).
Proof.
  induction s as [|c r IH]; intros found w.
  - simpl. now left.
  - change (headerLanguage (String c r) found)
      with (if isLineTerminator c then
              match found with
              | Some _ => found
              | None => headerLanguage r None
              end
            else
              match bracedWord (String c r) with
              | Some w' => headerLanguage r (Some w')
              | None => headerLanguage r found
              end).
    destruct (isLineTerminator c).
    + destruct found as [f|]; [now left|].
      intros H. destruct (IH _ _ H) as [H' | (H1 & H2 & H3)];
        [discriminate|].
      right. split; [exact H1|]. split; [exact H2|].
      rewrite includes_cons, H3. apply orb_true_r.
    + destruct (bracedWord (String c r)) as [w'|] eqn:Eb.
      * intros H. destruct (IH _ _ H) as [[= ->] | (H1 & H2 & H3)].
        -- right. destruct (bracedWord_spec _ _ Eb) as (H1 & H2 & H3).
           split; [exact H1|]. split; [exact H2|].
           now rewrite includes_cons, H3.
        -- right. split; [exact H1|]. split; [exact H2|].
           rewrite includes_cons, H3. apply orb_true_r.
      * intros H. destruct (IH _ _ H) as [H' | (H1 & H2 & H3)];
          [now left|].
        right. split; [exact H1|]. split; [exact H2|].
        rewrite includes_cons, H3. apply orb_true_r.
Qed.

Lemma scriptHeader_spec {Tree Annotated : Type}
    (env : Collaborators Tree Annotated) (request : ScriptContext)
    (start : nat) (language : string) :
  scriptHeader request (rangedLines env (scode request))
  = Some (start, language) ->
  (start = 0 /\ slanguage request = Some language
   /\ language <> EmptyString)
  \/ (start = 1
      /\ 2 <= length (rangedLines env (scode request))
      /\ language <> EmptyString /\ allLower language = true
      /\ exists first,
           hd_error (rangedLines env (scode request)) = Some first
           /\ includes (substring first) ("{" ++ language ++ "}")%string
              = true).
Proof.
  unfold scriptHeader.
  assert (Hread :
    (if (length (rangedLines env (scode request)) <? 2)%nat then None
     else match rangedLines env (scode request) with
          | [] => None
          | first :: _ =>
              match headerLanguage (substring first) None with
              | Some language => Some (1, language)
              | None => None
              end
          end) = Some (start, language) ->
    start = 1
    /\ 2 <= length (rangedLines env (scode request))
    /\ language <> EmptyString /\ allLower language = true
    /\ exists first,
         hd_error (rangedLines env (scode request)) = Some first
         /\ includes (substring first) ("{" ++ language ++ "}")%string
            = true).
  { destruct (Nat.ltb_spec (length (rangedLines env (scode request))) 2);
      [discriminate|].
    destruct (rangedLines env (scode request)) as [|first others];
      [discriminate|].
    destruct (headerLanguage (substring first) None) as [w|] eqn:E;
      [|discriminate].
    intros [= <- <-].
    destruct (headerLanguage_spec _ _ _ E) as [H' | (H1 & H2 & H3)];
      [discriminate|].
    split; [reflexivity|]. split; [assumption|].
    split; [exact H1|]. split; [exact H2|]. now exists first. }
  destruct (slanguage request) as [[|c l]|].
  - intros H. right. now apply Hread.
  - intros [= <- <-]. left. repeat split. discriminate.
  - intros H. right. now apply Hread.
Qed.

End HeaderFacts.



(** X19.  The script handler throws only when the code has no line at
    all: with at least one line, as every text has, it answers. *)
Theorem script_throws_only_without_lines {Tree Annotated : Type}
    (env : Collaborators Tree Annotated) (kind : Kind)
    (request : ScriptContext) (message : string) :
  automationFromGoodParseScript env kind request = Threw message ->
  rangedLines env (scode request) = [].
Proof.
  unfold automationFromGoodParseScript.
  destruct (scriptHeader request (rangedLines env (scode request)))
    as [[start language]|] eqn:Eh; [|discriminate].
  destruct (nth_error _ start) as [first|] eqn:E1.
  - destruct (nth_error _ (length _ - 1)) as [final|] eqn:E2.
    + destruct (partitionCellOptionsMapped env _ _); [|discriminate].
      destruct kind; [|discriminate].
      destruct (positionInTicks _); [discriminate|].
      destruct (completionsFromGoodParseYAML env _); discriminate.
    + intros _. apply nth_error_None in E2.
      destruct (rangedLines env (scode request)); [reflexivity|].
      simpl in E2. lia.
  - intros _. apply nth_error_None in E1.
    destruct (scriptHeader_spec env request _ _ Eh)
      as [(-> & _) | (-> & Hlen & _)].
    + destruct (rangedLines env (scode request)); [reflexivity|].
      simpl in E1. lia.
    + lia.
Qed.

Lemma script_throws_only_without_lines_witness :
  let env := mkCollaborators unit unit
               (fun _ => None) (fun _ _ => None) (fun _ _ => (true, []))
               (fun _ _ _ => []) (fun _ _ => 0%Z) (fun _ => [])
               (fun _ => EmptyString) (fun _ _ _ => []) (fun _ _ => 0%Z)
               (fun _ => []) (fun _ => []) (fun _ _ => None)
               (fun _ => EmptyString) (SScalar "null" [])
               (fun _ => SScalar "null" []) in
  automationFromGoodParseScript env KValidation
    (mkScriptContext (Some "r") "1+1" (mkPosition 0 0) "")
  = Threw "TypeError"
  /\ rangedLines env "1+1" = [].
Proof.
  intros env. split; [reflexivity|].
  exact (script_throws_only_without_lines env KValidation
           (mkScriptContext (Some "r") "1+1" (mkPosition 0 0) "")
           "TypeError" eq_refl).
Defined.

Section TickFacts.

Lemma rev_string_involutive s :
  rev_string EmptyString (rev_string EmptyString s) = s.
Proof.
  induction s as [|c s IH]; [reflexivity|].
  simpl. rewrite (rev_string_acc s (String c EmptyString)).
  rewrite rev_string_append, IH. reflexivity.
Qed.

Lemma endsWith_suffix s p :
  endsWith s p = true -> exists u, s = (u ++ p)%string.
Proof.
  unfold endsWith. intros H.
  destruct (startsWith_prefix _ _ H) as [r Hr].
  exists (rev_string EmptyString r).
  rewrite <- (rev_string_involutive s), Hr, rev_string_append.
  now rewrite rev_string_involutive.
Qed.

Lemma trimEnd_split s :
  exists w, s = (trimEnd s ++ w)%string /\ allWhiteSpace w = true.
Proof.
  induction s as [|c s [w [Hs Hw]]].
  - now exists EmptyString.
  - simpl. destruct (trimEnd s) as [|d t] eqn:E.
    + simpl in Hs. subst w.
      destruct (isWhiteSpace c) eqn:Ec.
      * exists (String c s). simpl. now rewrite Ec, Hw.
      * now exists s.
    + exists w. simpl. split; [|exact Hw]. now rewrite Hs at 1.
Qed.

Lemma whiteSpace_no_dash w p :
  allWhiteSpace w = true -> startsWith w (String "-" p) = false.
Proof.
  destruct w as [|c w]; [reflexivity|].
  change (allWhiteSpace (String c w))
    with (isWhiteSpace c && allWhiteSpace w).
  change (startsWith (String c w) (String "-" p))
    with (Ascii.eqb "-" c && startsWith w p).
  intros H. apply andb_true_iff in H as [Hc _].
  destruct (Ascii.eqb_spec "-" c) as [<- | _]; [discriminate | reflexivity].
Qed.

Lemma whiteSpace_lastIndexOf w :
  allWhiteSpace w = true -> lastIndexOf w "---" = None.
Proof.
  induction w as [|c w IH]; [reflexivity|].
  intros H.
  change (lastIndexOf (String c w) "---")
    with (match lastIndexOf w "---" with
          | Some i => Some (S i)
          | None => if startsWith (String c w) "---" then Some 0 else None
          end).
  rewrite (whiteSpace_no_dash _ _ H).
  simpl in H. apply andb_true_iff in H as [_ H]. now rewrite IH.
Qed.

Lemma lastIndexOf_closing w :
  allWhiteSpace w = true -> lastIndexOf ("---" ++ w)%string "---" = Some 0.
Proof.
  intros H.
  change (lastIndexOf ("---" ++ w)%string "---")
    with (match
             match
               match lastIndexOf w "---" with
               | Some i => Some (S i)
               | None => if Ascii.eqb "-" "-" && startsWith w "--"
                         then Some 0 else None
               end
             with
             | Some i => Some (S i)
             | None => if Ascii.eqb "-" "-"
                          && (Ascii.eqb "-" "-" && startsWith w "-")
                       then Some 0 else None
             end
           with
           | Some i => Some (S i)
           | None => if startsWith ("---" ++ w)%string "---"
                     then Some 0 else None
           end).
  rewrite (whiteSpace_lastIndexOf _ H), !(whiteSpace_no_dash _ _ H).
  rewrite (startsWith_append "---" w). reflexivity.
Qed.

Lemma lastIndexOf_append u p : forall s i,
  lastIndexOf s p = Some i ->
  lastIndexOf (u ++ s)%string p = Some (String.length u + i).
Proof.
  induction u as [|c u IH]; intros s i H; [exact H|].
  change (lastIndexOf (String c u ++ s)%string p)
    with (match lastIndexOf (u ++ s)%string p with
          | Some i => Some (S i)
          | None => if startsWith (String c (u ++ s)) p then Some 0 else None
          end).
  now rewrite (IH _ _ H).
Qed.

Lemma take_append u : forall s, take (String.length u) (u ++ s)%string = u.
Proof. induction u as [|c u IH]; intros s; simpl; [now destruct s|]. now rewrite IH. Qed.

Lemma drop_append u : forall s, drop (String.length u) (u ++ s)%string = s.
Proof. induction u as [|c u IH]; intros s; simpl; auto. Qed.

Lemma lines_plain c r :
  isLineTerminator c = false ->
  exists first rest,
    lines r = first :: rest /\ lines (String c r) = String c first :: rest.
Proof.
  unfold isLineTerminator. intros H.
  apply orb_false_iff in H as [Hlf Hcr].
  destruct r as [|c2 r2].
  - exists EmptyString, []. split; [reflexivity|].
    change (lines (String c "")) with
      (if Ascii.eqb c LF then [EmptyString; EmptyString]
       else [String c EmptyString]).
    now rewrite Hlf.
  - change (lines (String c (String c2 r2))) with
      (if Ascii.eqb c LF then EmptyString :: lines (String c2 r2)
       else if Ascii.eqb c CR && Ascii.eqb c2 LF
            then EmptyString :: lines r2
            else match lines (String c2 r2) with
                 | l :: ls => String c l :: ls
                 | [] => [String c EmptyString]
                 end).
    rewrite Hlf, Hcr.
    change (false && Ascii.eqb c2 LF) with false. cbv iota.
    destruct (lines (String c2 r2)) as [|first rest] eqn:E.
    + exfalso. revert E.
      change (lines (String c2 r2)) with
        (if Ascii.eqb c2 LF then EmptyString :: lines r2
         else match r2 with
              | String c3 r3 =>
                  if Ascii.eqb c2 CR && Ascii.eqb c3 LF
                  then EmptyString :: lines r3
                  else match lines r2 with
                       | l :: ls => String c2 l :: ls
                       | [] => [String c2 EmptyString]
                       end
              | EmptyString => [String c2 EmptyString]
              end).
      destruct (Ascii.eqb c2 LF); [discriminate|].
      destruct r2 as [|c3 r3]; [discriminate|].
      destruct (Ascii.eqb c2 CR && Ascii.eqb c3 LF); [discriminate|].
      destruct (lines (String c3 r3)); discriminate.
    + now exists first, rest.
Qed.

Lemma trimClosing_spec (context : Context) :
  line (trimClosing context) = line context
  /\ position (trimClosing context) = position context
  /\ schema (trimClosing context) = schema context
  /\ commentPrefix (trimClosing context) = commentPrefix context
  /\ exists post,
       code context = (code (trimClosing context) ++ post)%string
       /\ (if endsWith (trimEnd (code context)) "---"
           then closingDelimiter post = true
           else post = EmptyString).
Proof.
  unfold trimClosing.
  destruct (endsWith (trimEnd (code context)) "---") eqn:E.
  - repeat (split; [reflexivity|]).
    destruct (trimEnd_split (code context)) as [w [Hs Hw]].
    destruct (endsWith_suffix _ _ E) as [u Hu].
    rewrite Hu, string_append_assoc in Hs.
    exists ("---" ++ w)%string.
    cbn [code withCode].
    set (s := code context) in *. clearbody s. subst s.
    rewrite (lastIndexOf_append u "---" _ 0 (lastIndexOf_closing w Hw)).
    rewrite Nat.add_0_r, take_append.
    split; [reflexivity|].
    unfold closingDelimiter. now rewrite stripPrefix_append.
  - repeat (split; [reflexivity|]).
    exists EmptyString. now rewrite append_empty_r.
Qed.

Lemma trimTicks_steps (context : Context) :
  trimTicks context
  = trimClosing (if startsWith (code context) "---"
                 then withCode context (drop 3 (code context))
                 else context).
Proof. reflexivity. Qed.

End TickFacts.

(** X20.  [trimTicks] changes nothing of a request but its code, from
    which it removes the three dashes that open it and the last three
    dashes when only white space follows them: the code is the dashes
    removed at the start, the code kept, and the closing delimiter with
    its white space.  A code that has neither is left as it is, and
    removing the opening dashes leaves every row where it was, so that
    the position needs no update. *)
Theorem trimTicks_removes_delimiters (context : Context) :
  line (trimTicks context) = line context
  /\ position (trimTicks context) = position context
  /\ schema (trimTicks context) = schema context
  /\ commentPrefix (trimTicks context) = commentPrefix context
  /\ (exists pre post,
         code context = (pre ++ code (trimTicks context) ++ post)%string
         /\ pre = (if startsWith (code context) "---" then "---"
                   else EmptyString)
         /\ (post = EmptyString \/ closingDelimiter post = true))
  /\ (startsWith (code context) "---" = false ->
      endsWith (trimEnd (code context)) "---" = false ->
      trimTicks context = context)
  /\ (startsWith (code context) "---" = true ->
      exists first rest,
        lines (drop 3 (code context)) = first :: rest
        /\ lines (code context) = ("---" ++ first)%string :: rest).
Proof.
  rewrite trimTicks_steps.
  destruct (startsWith (code context) "---") eqn:Es.
  - destruct (trimClosing_spec (withCode context (drop 3 (code context))))
      as (H1 & H2 & H3 & H4 & post & H5 & H6).
    repeat (split; [assumption|]).
    destruct (startsWith_prefix _ _ Es) as [r Hr].
    assert (Hd : drop 3 (code context) = r)
      by (rewrite Hr; apply (drop_append "---")).
    split; [|split].
    + exists "---", post. split; [|split; [reflexivity|]].
      * cbn [code withCode] in H5. rewrite <- H5, Hd. exact Hr.
      * destruct (endsWith _ "---"); auto.
    + discriminate.
    + intros _. rewrite Hd, Hr.
      destruct (lines_plain "-" r eq_refl) as (f1 & r1 & E1 & E1').
      destruct (lines_plain "-" (String "-" r) eq_refl)
        as (f2 & r2 & E2 & E2').
      destruct (lines_plain "-" (String "-" (String "-" r)) eq_refl)
        as (f3 & r3 & E3 & E3').
      exists f1, r1. split; [exact E1|].
      change ("---" ++ r)%string with (String "-" (String "-" (String "-" r))).
      rewrite E3'. rewrite E2' in E3. injection E3 as <- <-.
      rewrite E1' in E2. injection E2 as <- <-. reflexivity.
  - destruct (trimClosing_spec context) as (H1 & H2 & H3 & H4 & post & H5 & H6).
    repeat (split; [assumption|]).
    split; [|split].
    + exists EmptyString, post. split; [exact H5|]. split; [reflexivity|].
      destruct (endsWith _ "---"); auto.
    + intros _ He. unfold trimClosing. now rewrite He.
    + discriminate.
Qed.

Lemma trimTicks_removes_delimiters_witness :
  let context := mkContext "title: x" (mkPosition 1 8) (SScalar "null" [])
                   (unlines ["---"; "title: x"; "---"; ""]) None in
  code (trimTicks context) = String LF ("title: x" ++ nl)
  /\ lines (code context) = ["---"; "title: x"; "---"; ""]
  /\ exists first rest,
       lines (drop 3 (code context)) = first :: rest
       /\ lines (code context) = ("---" ++ first)%string :: rest.
Proof.
  intros context. split; [reflexivity|]. split; [reflexivity|].
  exact (proj2 (proj2 (proj2 (proj2 (proj2 (proj2
           (trimTicks_removes_delimiters context)))))) eq_refl).
Defined.

Section DocumentFacts.

Context {Annotated : Type}.
Variable env : DocumentCollaborators Annotated.

Lemma validateFrontMatter_text firstCell text :
  endsWith (msource firstCell) "---" = true ->
  frontMatterText env firstCell = Some text ->
  validateFrontMatter env firstCell
  = match readAnnotatedYamlFromMappedString env text with
    | Raised e => Raised e
    | Returned annotation =>
        Returned (match validateParseWithErrors env text annotation with
                  | Some errors => errors
                  | None => []
                  end)
    end.
Proof.
  unfold validateFrontMatter, frontMatterText. intros ->. cbn [negb].
  destruct (nth_error _ 1); [|discriminate].
  destruct (nth_error _ (_ - 2)); [|discriminate].
  intros [= <-].
  destruct (readAnnotatedYamlFromMappedString env _); [|reflexivity].
  now destruct (validateParseWithErrors env _ _).
Qed.

Lemma validateCells_passes cells : forall result,
  forallb (passedOver env) cells = true ->
  validateCells env cells result = Returned result.
Proof.
  induction cells as [|cell cells IH]; intros result H; [reflexivity|].
  cbn [forallb] in H. apply andb_true_iff in H as [Hcell Hrest].
  cbn [validateCells]. unfold passedOver in Hcell.
  destruct (mcell_type cell); try now apply IH.
  destruct (languageOptionsSchema env language); [discriminate|].
  now apply IH.
Qed.

End DocumentFacts.

(** X21.  The errors of the front matter come first.  When the first
    cell is a closed front matter of two lines or more that the parser
    reads, the result is the errors of its validation followed by the
    errors caught in the cells after it, in their order; the front
    matter itself is not validated as a cell.  When the parser throws,
    the error reaches the caller and no cell is validated. *)
Theorem front_matter_errors_first {Annotated : Type}
    (env : DocumentCollaborators Annotated) (src : string)
    (firstCell : MappedCell) (rest : list MappedCell) (text : string) :
  docCells env src = firstCell :: rest ->
  startsWith (msource firstCell) "---" = true ->
  endsWith (msource firstCell) "---" = true ->
  frontMatterText env firstCell = Some text ->
  (forall annotation,
      readAnnotatedYamlFromMappedString env text = Returned annotation ->
      onlyValidationErrors env rest ->
      validateDocumentFromSource env src
      = Returned (match validateParseWithErrors env text annotation with
                  | Some errors => errors
                  | None => []
                  end ++ flat_map (caughtErrors env) rest))
  /\ (forall e,
         readAnnotatedYamlFromMappedString env text = Raised e ->
         validateDocumentFromSource env src = Raised e).
Proof.
  intros Hcells Hs He Ht. unfold validateDocumentFromSource.
  rewrite Hcells, Hs, (validateFrontMatter_text env _ _ He Ht).
  split.
  - intros annotation -> Hrest. now apply validateCells_collects.
  - now intros e ->.
Qed.

Lemma front_matter_errors_first_witness :
  let unknown := mkError 1 0 1 5 "unknown key" in
  let mismatch := mkError 1 9 1 12 "echo must be a boolean" in
  let env := mkDocumentCollaborators unit
               (fun _ => [mkMappedCell MdRaw
                            (unlines ["---"; "titel: x"; "---"]) 0;
                          mkMappedCell (MdCode "python") "#| echo: tru" 4])
               (fun code => rangesFrom 0 (lines code))
               (fun _ => Returned tt)
               (fun _ _ => Some [unknown])
               (fun _ => Some (SScalar "null" []))
               (fun _ _ => Raised (ThrownValidationError [mismatch])) in
  frontMatterText env
    (mkMappedCell MdRaw (unlines ["---"; "titel: x"; "---"]) 0)
  = Some "titel: x"
  /\ validateDocumentFromSource env "x" = Returned [unknown; mismatch].
Proof.
  intros unknown mismatch env. split; [reflexivity|].
  refine (proj1 (front_matter_errors_first env "x"
                   (mkMappedCell MdRaw (unlines ["---"; "titel: x"; "---"]) 0)
                   [mkMappedCell (MdCode "python") "#| echo: tru" 4]
                   "titel: x" eq_refl eq_refl eq_refl eq_refl)
                tt eq_refl _).
  repeat constructor; intros m; discriminate.
Defined.

(** X22.  Prose, raw and math cells, and code cells of a language that
    has no schema of options, are passed over: whatever the validation
    of options would do with them, a run of such cells adds no error and
    throws nothing.  A document without front matter made of such cells
    has no error, and neither has an empty one, which is not even
    segmented. *)
Theorem cells_without_schema_are_passed_over {Annotated : Type}
    (env : DocumentCollaborators Annotated) :
  (forall cells result,
      forallb (passedOver env) cells = true ->
      validateCells env cells result = Returned result)
  /\ (forall markdown,
         forallb (passedOver env) (docCells env markdown) = true ->
         match docCells env markdown with
         | firstCell :: _ => startsWith (msource firstCell) "---" = false
         | [] => True
         end ->
         validateDocument env markdown = Returned [])
  /\ validateDocument env EmptyString = Returned [].
Proof.
  split; [|split].
  - intros cells result. apply validateCells_passes.
  - intros markdown Hcells Hfirst.
    unfold validateDocument, validateDocumentFromSource.
    destruct (markdown =? "")%string; [reflexivity|].
    destruct (docCells env markdown) as [|firstCell rest]; [reflexivity|].
    rewrite Hfirst. now apply validateCells_passes.
  - reflexivity.
Qed.

Lemma cells_without_schema_are_passed_over_witness :
  let env := mkDocumentCollaborators unit
               (fun _ => [mkMappedCell MdMarkdown "Hello" 0;
                          mkMappedCell (MdCode "mermaid") "%%| x: 1" 2])
               (fun code => rangesFrom 0 (lines code))
               (fun _ => Returned tt)
               (fun _ _ => Some [])
               (fun lang => if (lang =? "python")%string
                            then Some (SScalar "null" []) else None)
               (fun _ _ => Raised (ThrownError "bad YAML")) in
  validateDocument env "Hello" = Returned [].
Proof.
  intros env.
  exact (proj1 (proj2 (cells_without_schema_are_passed_over env))
           "Hello" eq_refl eq_refl).
Defined.

(** X23.  A first cell that starts and ends with three dashes and has
    fewer than two lines, as the only cell of a document that is a lone
    delimiter, makes the validation throw, and not the error for an
    unclosed front matter: the second line it asks for does not exist.
    Neither the parser nor the validation of any cell decides it. *)
Theorem lone_delimiter_throws {Annotated : Type}
    (env : DocumentCollaborators Annotated) (src : string)
    (firstCell : MappedCell) (rest : list MappedCell) :
  docCells env src = firstCell :: rest ->
  startsWith (msource firstCell) "---" = true ->
  endsWith (msource firstCell) "---" = true ->
  length (docRangedLines env (msource firstCell)) < 2 ->
  validateDocumentFromSource env src = Raised (ThrownError "TypeError").
Proof.
  intros Hcells Hs He Hlen.
  unfold validateDocumentFromSource. rewrite Hcells, Hs.
  unfold validateFrontMatter. rewrite He. cbn [negb].
  destruct (nth_error _ 1) eqn:E; [|reflexivity].
  assert (1 < length (docRangedLines env (msource firstCell)))
    by (apply nth_error_Some; congruence).
  lia.
Qed.

Lemma lone_delimiter_throws_witness :
  let env := exampleDocument [mkMappedCell MdMarkdown "---" 0]
               (fun _ _ => Returned tt) in
  validateDocumentFromSource env "---" = Raised (ThrownError "TypeError").
Proof.
  intros env.
  refine (lone_delimiter_throws env "---"
            (mkMappedCell MdMarkdown "---" 0) []
            eq_refl eq_refl eq_refl _).
  vm_compute. lia.
Defined.

Section UnclosedBlocks.

Variable language : string.

Lemma nonEmptyLine_append x t :
  nonEmptyLine x = true -> nonEmptyLine (x ++ t)%string = true.
Proof.
  rewrite !nonEmptyLine_spec, allWhiteSpace_app.
  intros H. apply negb_true_iff in H. now rewrite H.
Qed.

Lemma trimmedSource_head x l :
  nonEmptyLine x = true ->
  exists first rest,
    trimmedSource (x :: l) = first :: rest /\ startsWith first x = true.
Proof.
  intros Hx. unfold trimmedSource.
  assert (H1 : spliceFirstEmpty (x :: l) = x :: l)
    by (simpl; now rewrite (nonEmpty_not_empty _ Hx)).
  assert (H2 : exists l', spliceLastEmpty (x :: l) = x :: l').
  { unfold spliceLastEmpty.
    destruct (last (x :: l) "x" =? "")%string eqn:E; [|eauto].
    destruct l as [|y l].
    - simpl in E. rewrite (nonEmpty_not_empty _ Hx) in E. discriminate.
    - exists (removelast (y :: l)). reflexivity. }
  destruct H2 as [l' H2]. rewrite H1, H2.
  unfold cellSource, mapi. cbn [mapi_from].
  set (first := (x ++ _)%string).
  assert (Hf : nonEmptyLine first = true) by now apply nonEmptyLine_append.
  rewrite mdTrimEmptyLines_eq.
  cbn [dropBlank]. unfold blankLine at 1. rewrite Hf. cbn [negb].
  destruct (dropBlankEnd_head first (mapi_from 1
              (fun line index =>
                 (line ++ (if (index <? length (x :: l') - 1)%nat
                           then nl else ""))%string) l') Hf) as [r' ->].
  exists first, r'. split; [reflexivity|]. apply startsWith_append.
Qed.

Lemma flush_after_plain body st0 :
  forallb (plainLine language st0) body = true ->
  cells (flushLineBuffer language FlushMarkdown false
           (fold_left (processLine language) body st0))
  = cells st0 ++ flushed language FlushMarkdown (lineBuffer st0 ++ body).
Proof.
  intros H. rewrite (plain_fold language body st0 H).
  rewrite flushLineBuffer_eq. unfold withBuffer. reflexivity.
Qed.

End UnclosedBlocks.



Section EntryFacts.

Lemma includes_middle b ext : includes (b ++ "." ++ ext)%string "." = true.
Proof.
  induction b as [|c b IH].
  - change ("" ++ "." ++ ext)%string with (String "." ext).
    rewrite includes_cons.
    change (startsWith (String "." ext) ".")
      with (Ascii.eqb "." "." && startsWith ext "").
    now rewrite startsWith_empty.
  - change (String c b ++ "." ++ ext)%string
      with (String c (b ++ "." ++ ext)).
    rewrite includes_cons, IH. apply orb_true_r.
Qed.

Lemma extensionOf_append b : forall ext,
  includes ext "." = false -> extensionOf (b ++ "." ++ ext)%string = ext.
Proof.
  induction b as [|c b IH]; intros ext H.
  - change (extensionOf ("" ++ "." ++ ext)%string)
      with (if includes ext "." then extensionOf ext
            else if Ascii.eqb "." "." then ext else String "." ext).
    now rewrite H.
  - change (extensionOf (String c b ++ "." ++ ext)%string)
      with (if includes (b ++ "." ++ ext)%string "."
            then extensionOf (b ++ "." ++ ext)%string
            else if Ascii.eqb c "." then (b ++ "." ++ ext)%string
                 else String c (b ++ "." ++ ext)).
    rewrite includes_middle. now apply IH.
Qed.

Lemma extensionOf_plain path :
  includes path "." = false -> extensionOf path = path.
Proof.
  destruct path as [|c r]; [reflexivity|].
  rewrite includes_cons. intros H. apply orb_false_iff in H as [Hc Hr].
  change (extensionOf (String c r))
    with (if includes r "." then extensionOf r
          else if Ascii.eqb c "." then r else String c r).
  rewrite Hr.
  change (startsWith (String c r) ".")
    with (Ascii.eqb "." c && startsWith r "") in Hc.
  rewrite startsWith_empty, andb_true_r, Ascii.eqb_sym in Hc.
  now rewrite Hc.
Qed.

End EntryFacts.

(** X25.  The entry point.  The extension of a path is what follows its
    last dot, the whole path when it has no dot.  A YAML file is
    handled with the front-matter schema when that extension is [qmd]
    and with the schema of the project configuration otherwise; for a
    Markdown file or a script neither the path nor the configuration
    schema matters; a file of another type gets [null]. *)
Theorem getAutomation_answers {Tree Annotated : Type}
    (env : Collaborators Tree Annotated) (configSchema : Schema)
    (kind : Kind) (request : Request) :
  (forall base ext,
      includes ext "." = false ->
      extensionOf (base ++ "." ++ ext)%string = ext)
  /\ (includes (rpath request) "." = false ->
      extensionOf (rpath request) = rpath request)
  /\ (rfiletype request = "yaml" ->
      getAutomation env configSchema kind request
      = orNull (Some (automationFromGoodParseYAML env kind
                        (requestContext request
                           (Some (if (extensionOf (rpath request) =? "qmd")%string
                                  then frontMatterSchema env
                                  else configSchema))))))
  /\ (rfiletype request = "markdown" \/ rfiletype request = "script" ->
      forall path otherSchema,
        getAutomation env otherSchema kind (withPath request path)
        = getAutomation env configSchema kind request)
  /\ (rfiletype request <> "markdown" -> rfiletype request <> "yaml" ->
      rfiletype request <> "script" ->
      getAutomation env configSchema kind request = Null).
Proof.
  split; [intros base ext; apply extensionOf_append|].
  split; [apply extensionOf_plain|].
  split; [|split].
  - intros Hy. unfold getAutomation, automationFileTypeDispatch.
    now rewrite Hy.
  - intros [Hm | Hs] path otherSchema;
      unfold getAutomation, automationFileTypeDispatch, withPath;
      cbn [rfiletype rpath]; [rewrite Hm | rewrite Hs]; reflexivity.
  - intros Hm Hy Hs. unfold getAutomation, automationFileTypeDispatch.
    apply String.eqb_neq in Hm, Hy, Hs. now rewrite Hm, Hy, Hs.
Qed.

Lemma getAutomation_answers_witness :
  let env := exampleCollaborators (fun _ => true) [] None [] in
  let request := mkRequest "docs/index.qmd" "yaml" "title: x" "title: x"
                   (mkPosition 0 8) None None in
  extensionOf "docs/index.qmd" = "qmd"
  /\ extensionOf "Makefile" = "Makefile"
  /\ getAutomation env noSchema KValidation request
     = orNull (Some (automationFromGoodParseYAML env KValidation
                       (requestContext request
                          (Some (frontMatterSchema env)))))
  /\ getAutomation env noSchema KValidation
       (mkRequest "notes.txt" "text" "x" "x" (mkPosition 0 1) None None)
     = Null.
Proof.
  intros env request.
  split; [|split; [|split]].
  - exact (proj1 (getAutomation_answers env noSchema KValidation request)
             "docs/index" "qmd" eq_refl).
  - exact (proj1 (proj2 (getAutomation_answers env noSchema KValidation
                           (withPath request "Makefile"))) eq_refl).
  - exact (proj1 (proj2 (proj2 (getAutomation_answers env noSchema
                                  KValidation request))) eq_refl).
  - refine (proj2 (proj2 (proj2 (proj2
              (getAutomation_answers env noSchema KValidation
                 (mkRequest "notes.txt" "text" "x" "x" (mkPosition 0 1)
                            None None))))) _ _ _); discriminate.
Defined.
